(** * TuneBot: the per-guild music queue of [app/app.py]

    A shallow embedding of the queue and playback logic of the bot
    ([format_duration], [MusicQueue], [Music.play], [Music.play_song],
    [Music.play_next], [Music.skip], [Music.stop], [Music.volume],
    [MusicBot.on_voice_state_update], ...) and the properties of it that
    the specification states.

    Python objects are modelled by their identity: a [YTDLSource] is a
    reference into a heap of source objects, so the queue, [queue.current]
    and the voice client's player may alias one object.  The coroutines are
    cut at their suspension points: every command below is one
    uninterrupted run of the event loop, and the commands that other tasks
    run while [play] awaits a resolution are passed to it explicitly. *)

From Stdlib Require Import ZArith QArith List String Ascii Bool Lia Arith.
From Stdlib Require Import DecimalString.
Import ListNotations.

Local Open Scope string_scope.
Local Open Scope Z_scope.

(** ** Durations *)

(** [int(duration)]: a Python number truncated toward zero.  yt-dlp reports
    a duration as an integer or as a finite float, both are rationals. *)
Definition py_int (d : Q) : Z := Z.quot (Qnum d) (Zpos (Qden d)).

(** [f"{n}"] for an integer: its decimal digits, with a leading minus sign
    below zero. *)
Definition str (n : Z) : string := NilZero.string_of_int (Z.to_int n).

(** [s.rjust(width, "0")]. *)
Fixpoint zfill (pad : nat) (s : string) : string :=
  match pad with
  | O => s
  | S p => String "0"%char (zfill p s)
  end.

(** [f"{n:02d}"]: the digits are filled with zeros up to a width of two,
    the sign counting in the width. *)
Definition fmt_02d (n : Z) : string :=
  let body := str (Z.abs n) in
  if n <? 0
  then String "-"%char (zfill (1 - String.length body) body)
  else zfill (2 - String.length body) body.

(** [format_duration(duration)]; [None] is Python's [None]. *)
Definition format_duration (duration : option Q) : string :=
  match duration with
  | None => "Unknown"
  | Some d =>
      let hours := py_int d / 3600 in
      let remainder := py_int d mod 3600 in
      let minutes := remainder / 60 in
      let seconds := remainder mod 60 in
      if 0 <? hours
      then str hours ++ ":" ++ fmt_02d minutes ++ ":" ++ fmt_02d seconds
      else str minutes ++ ":" ++ fmt_02d seconds
  end.

(** The character of one decimal digit. *)
Definition digit (d : Z) : ascii := ascii_of_nat (48 + Z.to_nat d).

(** Exactly two decimal digits: the tens, then the units. *)
Definition two_digits (n : Z) : string :=
  String (digit (n / 10)) (String (digit (n mod 10)) EmptyString).

(** ** Source objects, the queue of a guild, the voice client *)

(** A [YTDLSource] object is known by its address in [heap]. *)
Definition ref := nat.

(** The attributes of a [YTDLSource] that the queue logic reads or writes
    ([uploader] and [thumbnail] only decorate the embeds and are left
    out); [src_volume] is the [volume] of the [PCMVolumeTransformer]. *)
Record YTDLSource := {
  src_title : string;
  src_duration : option Q;
  src_volume : Q
}.

(** [class MusicQueue]: [queue] is the deque, leftmost element first. *)
Record MusicQueue := {
  queue : list ref;
  current : option ref;
  loop : bool;
  volume : Q;
  processing : bool
}.

(** [MusicQueue.__init__]. *)
Definition new_queue : MusicQueue :=
  {| queue := []; current := None; loop := false; volume := 1;
     processing := true |}.

(** The voice client of the guild: the channel it is connected to and its
    [_player], the source handed to the last [play] together with whether
    the player thread is still streaming it.  [stop] forgets the player,
    the end of the stream does not. *)
Record VoiceClient := {
  channel : nat;
  player : option (ref * bool)
}.

(** What the bot sends to the text channel, one constructor per
    [ctx.send] of the source, with the interpolated parts as arguments. *)
Inductive message :=
| NeedVoiceChannel          (* You need to be in a voice channel! *)
| StoppedPlaylist           (* Stopped processing remaining tracks in playlist. *)
| StoppedAlbum              (* Stopped processing remaining tracks in album. *)
| InvalidSpotifyUrl
| SpotifyError (e : string) (* Error processing Spotify URL: e *)
| AddedToQueue (title duration_str : string)
| NowPlaying (title duration_str : string)
| ErrorOccurred (e : string)  (* An error occurred: e *)
| PlaybackError (e : string)  (* Error: e *)
| QueueEmpty
| QueueShown (now : option (string * string)) (up_next : list (string * string))
| LoopMode (enabled : bool)
| VolumeOutOfRange          (* Volume must be between 0 and 200! *)
| VolumeSet (v : Z)
| NotPlayingAudio           (* Not playing any audio to adjust volume. *)
| QueueCleared
| StoppedPlaying
| DisconnectedFromVoice
| NoSongPlaying
| NoMoreSongs.

(** What the bot does to the outside, in the order it does it. *)
Inductive effect :=
| Send (m : message)
| Connect (ch : nat)
| MoveTo (ch : nat)
| Extract (search : string)   (* [ytdl.extract_info] inside [create_source] *)
| Start (s : ref)             (* [voice_client.play] accepted the source *)
| StopPlayer                  (* [voice_client.stop] *)
| Leave                       (* [voice_client.disconnect] *)
| Sleep (seconds : Z)
| Unhandled (e : string).     (* an exception left a command, task or handler *)

(** The state of one guild.  [mq] is [bot.music_queues[guild.id]]: the
    dictionary entry is created by [get_queue] with the constructor's
    values, and nothing reads it before, so the guild starts with them.
    [callbacks] are the [after] callbacks that player threads have handed
    to the event loop and that have not run yet, oldest first; [sleepers]
    counts the [on_voice_state_update] handlers inside [asyncio.sleep];
    [trace] has the newest effect first. *)
Record World := {
  mq : MusicQueue;
  voice_client : option VoiceClient;
  heap : list YTDLSource;
  callbacks : list (option string);
  sleepers : nat;
  trace : list effect
}.

Definition init : World :=
  {| mq := new_queue; voice_client := None; heap := []; callbacks := [];
     sleepers := 0; trace := [] |}.

Definition with_mq (q : MusicQueue) (w : World) : World :=
  {| mq := q; voice_client := voice_client w; heap := heap w;
     callbacks := callbacks w; sleepers := sleepers w; trace := trace w |}.

Definition with_voice_client (v : option VoiceClient) (w : World) : World :=
  {| mq := mq w; voice_client := v; heap := heap w;
     callbacks := callbacks w; sleepers := sleepers w; trace := trace w |}.

Definition with_heap (h : list YTDLSource) (w : World) : World :=
  {| mq := mq w; voice_client := voice_client w; heap := h;
     callbacks := callbacks w; sleepers := sleepers w; trace := trace w |}.

Definition with_callbacks (c : list (option string)) (w : World) : World :=
  {| mq := mq w; voice_client := voice_client w; heap := heap w;
     callbacks := c; sleepers := sleepers w; trace := trace w |}.

Definition with_sleepers (n : nat) (w : World) : World :=
  {| mq := mq w; voice_client := voice_client w; heap := heap w;
     callbacks := callbacks w; sleepers := n; trace := trace w |}.

Definition emit (e : effect) (w : World) : World :=
  {| mq := mq w; voice_client := voice_client w; heap := heap w;
     callbacks := callbacks w; sleepers := sleepers w; trace := e :: trace w |}.

Definition set_queue (l : list ref) (q : MusicQueue) : MusicQueue :=
  {| queue := l; current := current q; loop := loop q; volume := volume q;
     processing := processing q |}.

Definition set_current (c : option ref) (q : MusicQueue) : MusicQueue :=
  {| queue := queue q; current := c; loop := loop q; volume := volume q;
     processing := processing q |}.

Definition set_loop (b : bool) (q : MusicQueue) : MusicQueue :=
  {| queue := queue q; current := current q; loop := b; volume := volume q;
     processing := processing q |}.

Definition set_processing (b : bool) (q : MusicQueue) : MusicQueue :=
  {| queue := queue q; current := current q; loop := loop q;
     volume := volume q; processing := b |}.

(** ** Coroutines: state that survives an exception *)

Inductive result (A : Type) :=
| Returned (a : A)
| Raised (e : string).
Arguments Returned {A} a.
Arguments Raised {A} e.

Definition M (A : Type) : Type := World -> result A * World.

Definition ret {A} (a : A) : M A := fun w => (Returned a, w).

Definition bind {A B} (m : M A) (k : A -> M B) : M B :=
  fun w =>
    match m w with
    | (Returned a, w') => k a w'
    | (Raised e, w') => (Raised e, w')
    end.

Definition raise {A} (e : string) : M A := fun w => (Raised e, w).

(** [try: body except Exception as e: handler(e)]. *)
Definition try_except {A} (body : M A) (handler : string -> M A) : M A :=
  fun w =>
    match body w with
    | (Returned a, w') => (Returned a, w')
    | (Raised e, w') => handler e w'
    end.

(** A mutation that cannot fail. *)
Definition act (f : World -> World) : M unit := fun w => (Returned tt, f w).

Definition read {A} (f : World -> A) : M A := fun w => (Returned (f w), w).

Declare Scope coroutine_scope.
Delimit Scope coroutine_scope with co.
Notation "x <- m ;; k" := (bind m (fun x => k))
  (at level 61, m at next level, right associativity) : coroutine_scope.
Notation "m ;; k" := (bind m (fun _ => k))
  (at level 61, right associativity) : coroutine_scope.
Local Open Scope coroutine_scope.

(** [await ctx.send(m)]. *)
Definition send (m : message) : M unit := act (emit (Send m)).

(** The way the framework ends a command, a task or an event handler: an
    exception that reaches it is logged and otherwise lost. *)
Definition finish (m : M unit) (w : World) : World :=
  match m w with
  | (Returned _, w') => w'
  | (Raised e, w') => emit (Unhandled e) w'
  end.

(** The title and the formatted duration of a source, as the embeds show
    them (an address outside the heap, which no run produces, shows as an
    empty title). *)
Definition describe (w : World) (s : ref) : string * string :=
  match nth_error (heap w) s with
  | Some src => (src_title src, format_duration (src_duration src))
  | None => ("", format_duration None)
  end.

(** ** The voice client (discord.py), as far as the bot uses it *)

Module VoiceClient.

(** [is_playing()]: there is a player and its thread is streaming. *)
Definition is_playing (vc : VoiceClient) : bool :=
  match player vc with
  | Some (_, streaming) => streaming
  | None => false
  end.

(** The [source] property: the source of the player, if there is one. *)
Definition source (vc : VoiceClient) : option ref :=
  match player vc with
  | Some (s, _) => Some s
  | None => None
  end.

(** [ctx.voice_client.play(source, after=...)].  Without a voice client
    the attribute access fails; a client that is playing refuses. *)
Definition play (s : ref) : M unit :=
  fun w =>
    match voice_client w with
    | None => (Raised "'NoneType' object has no attribute 'play'", w)
    | Some vc =>
        if is_playing vc
        then (Raised "Already playing audio.", w)
        else (Returned tt,
              emit (Start s)
                (with_voice_client
                   (Some {| channel := channel vc; player := Some (s, true) |})
                   w))
    end.

(** [stop()] on the client [vc]: the player is forgotten; a thread that
    was still streaming ends and hands its [after] callback, with no
    error, to the event loop. *)
Definition stop (vc : VoiceClient) (w : World) : World :=
  let w1 :=
    if is_playing vc then with_callbacks (callbacks w ++ [None]) w else w in
  emit StopPlayer
    (with_voice_client (Some {| channel := channel vc; player := None |}) w1).

(** [disconnect()]: stops, then the guild has no voice client any more. *)
Definition disconnect (vc : VoiceClient) (w : World) : World :=
  emit Leave (with_voice_client None (stop vc w)).

(** The player thread of a streaming source reaches the end of the stream
    ([e = None]) or fails ([e = Some error]): it stops streaming and hands
    its [after] callback to the event loop. *)
Definition stream_ends (e : option string) (w : World) : World :=
  match voice_client w with
  | Some vc =>
      match player vc with
      | Some (s, true) =>
          with_callbacks (callbacks w ++ [e])
            (with_voice_client
               (Some {| channel := channel vc; player := Some (s, false) |}) w)
      | _ => w
      end
  | None => w
  end.

End VoiceClient.

(** ** What the network answers *)

(** The part of [ytdl.extract_info]'s answer that the bot keeps. *)
Record data := {
  data_title : string;
  data_duration : option Q
}.

(** The ways [create_source] fails, in the order of its statements:
    [extract_info] or its ten-second timeout raises, which the method
    raises again under its own prefix; then, outside that [try], the
    answer is [None] (the test ['entries' in data] fails), its
    ['entries'] are empty ([data['entries'][0]] fails, a search without
    result), the entry has no ['url'], or [FFmpegPCMAudio] raises. *)
Inductive failure :=
| ExtractInfo (e : string)
| NoData
| NoEntries
| NoUrl
| Audio (e : string).

(** [str(e)] of the exception that leaves [create_source]. *)
Definition failure_text (f : failure) : string :=
  match f with
  | ExtractInfo e => "An error occurred: " ++ e
  | NoData => "argument of type 'NoneType' is not iterable"
  | NoEntries => "list index out of range"
  | NoUrl => "'url'"
  | Audio e => e
  end.

(** What one [play] meets outside: whether joining or moving to the
    author's channel fails, and what [create_source] comes to, a failure
    or the data of the entry it uses. *)
Record attempt := {
  connect_raises : option string;
  extracted : failure + data
}.

(** The entries of [SpotifyClient]'s dictionaries that the bot reads. *)
Record track_dict := {
  td_title : string;
  td_artist : string
}.

(** ** Commands and events

    One [cmd] is one uninterrupted run of the event loop: a command of the
    cog whose coroutine mutates the queue before its first suspension, the
    end of a stream, the run of a scheduled [after] callback, and the two
    halves of [on_voice_state_update] around its [asyncio.sleep].  [PlayNow]
    is a [play] of a search term during whose resolution nothing else
    runs. *)
Inductive cmd :=
| PlayNow (author : option nat) (search : string) (a : attempt)
| ShowQueue
| ToggleLoop
| SetVolume (v : Z)
| Clear
| Stop
| Disconnect
| Skip
| StreamEnds (e : option string)
| RunCallback
| VoiceStateUpdate (humans : nat)
| WakeUp (humans : nat).

(** What the [play] that the expansion loop runs for a track does with
    the query composed of title and artist, decided by
    [is_spotify_url(query)] before the [try] block: [urlparse] raises on
    the query; or its host is one of Spotify's and the query goes to
    [process_spotify_url] again, [answers] being what the client gives
    for it; or, as for nearly every title, the query is a search term,
    with the commands other tasks run while the extraction is awaited
    ([during]) and while the confirmation is sent ([after]) and what the
    extraction meets. *)
Inductive nested_play (api : Type) :=
| AsSearch (during : list cmd) (a : attempt) (after : list cmd)
| UrlRaises (e : string)
| AsSpotifyUrl (answers : api).
Arguments AsSearch {api} during a after.
Arguments UrlRaises {api} e.
Arguments AsSpotifyUrl {api} answers.

(** One track of a Spotify answer and what happens around the [play] that
    the expansion loop runs for it: the voice channel of the author at
    that moment and what becomes of the query ([subitem]); what the three
    methods of [SpotifyClient] would answer for the URL of a request, an
    exception or the tracks ([spotify_api]). *)
Inductive subitem := {
  sub_track : track_dict;
  sub_author : option nat;
  sub_play : nested_play spotify_api
}
with spotify_api := {
  get_track_info : string + subitem;
  get_playlist_tracks : string + list subitem;
  get_album_tracks : string + list subitem
}.

(** The commands other tasks run while the extraction of a track is
    awaited; none when its [play] does not come to an extraction. *)
Definition sub_during (t : subitem) : list cmd :=
  match sub_play t with
  | AsSearch during _ _ => during
  | _ => []
  end.

(** What the extraction of a track meets; when its [play] does not come
    to an extraction, no data. *)
Definition sub_attempt (t : subitem) : attempt :=
  match sub_play t with
  | AsSearch _ a _ => a
  | _ => {| connect_raises := None; extracted := inl NoData |}
  end.

(** The commands other tasks run while the confirmation of a track is
    sent; none when its [play] does not come to an extraction. *)
Definition sub_after (t : subitem) : list cmd :=
  match sub_play t with
  | AsSearch _ _ after => after
  | _ => []
  end.

(** The [query] of a [play], as [is_spotify_url] finds it: a search term
    or a URL of another host, a URL whose host is one of Spotify's, or a
    text on which [urlparse] raises. *)
Inductive query :=
| SearchTerm (text : string) (during : list cmd) (a : attempt)
| SpotifyUrl (url : string) (api : spotify_api)
| BadUrl (text : string) (e : string).

Inductive request :=
| Command (c : cmd)
| Play (author : option nat) (q : query).

(** [needle in hay] on strings. *)
Fixpoint contains (needle hay : string) : bool :=
  if String.prefix needle hay then true
  else match hay with
       | EmptyString => false
       | String _ rest => contains needle rest
       end.

(** [source.volume = v] on the object at address [s]. *)
Fixpoint set_src_volume (s : ref) (v : Q) (h : list YTDLSource)
  : list YTDLSource :=
  match h, s with
  | [], _ => []
  | src :: rest, O =>
      {| src_title := src_title src; src_duration := src_duration src;
         src_volume := v |} :: rest
  | src :: rest, S s' => src :: set_src_volume s' v rest
  end.

(** [YTDLSource.create_source(search)]: the extraction is awaited, other
    tasks run meanwhile ([others]); a failure of it is raised again under
    the method's prefix, a failure of the statements after it as it is;
    otherwise the data become a new source object, at the volume of the
    constructor's default. *)
Definition create_source (search : string) (others : World -> World)
    (answer : failure + data) : M ref :=
  act (emit (Extract search)) ;;
  act others ;;
  match answer with
  | inl f => raise (failure_text f)
  | inr d =>
      fun w =>
        (Returned (List.length (heap w)),
         with_heap
           (heap w ++ [{| src_title := data_title d;
                          src_duration := data_duration d;
                          src_volume := 1 |}]) w)
  end.

(** [f"{track['title']} {track['artist']}"]. *)
Definition search_of (t : subitem) : string :=
  td_title (sub_track t) ++ " " ++ td_artist (sub_track t).

(** [class MusicBot]: the idle monitor. *)
Module MusicBot.

(** [on_voice_state_update] up to its [asyncio.sleep(5)]; [humans] is the
    number of members of the bot's channel that are not bots. *)
Definition on_voice_state_update (humans : nat) (w : World) : World :=
  match voice_client w with
  | None => w
  | Some _ =>
      if Nat.eqb humans 0
      then emit (Sleep 5) (with_sleepers (S (sleepers w)) w)
      else w
  end.

(** [on_voice_state_update] from the end of the sleep; [humans] is the
    count at that moment.  After the disconnect the handler reads the
    global [logger], which the module never defines. *)
Definition on_voice_state_update_resumed (humans : nat) : M unit :=
  if Nat.eqb humans 0
  then
    act (fun w =>
           with_mq (set_queue [] (set_processing false (mq w))) w) ;;
    vc <- read voice_client ;;
    match vc with
    | None => raise "'NoneType' object has no attribute 'disconnect'"
    | Some vc =>
        act (VoiceClient.disconnect vc) ;;
        raise "name 'logger' is not defined"
    end
  else ret tt.

End MusicBot.

(** [class Music]: the commands of the cog. *)
Module Music.

(** [get_queue(ctx)]: the queue object of the guild. *)
Definition get_queue : M MusicQueue := read mq.

(** A mutation of that object. *)
Definition update_queue (f : MusicQueue -> MusicQueue) : M unit :=
  act (fun w => with_mq (f (mq w)) w).

(** [play_song(ctx, source)]. *)
Definition play_song (source : ref) : M unit :=
  update_queue (set_current (Some source)) ;;
  VoiceClient.play source ;;
  d <- read (fun w => describe w source) ;;
  send (NowPlaying (fst d) (snd d)).

(** The first statement of [play_next]: with [loop] on and a [current],
    [queue.queue.appendleft(queue.current)]. *)
Definition reinsert_current : M unit :=
  q <- get_queue ;;
  match current q with
  | Some c =>
      if loop q then update_queue (set_queue (c :: queue q)) else ret tt
  | None => ret tt
  end.

(** The second statement of [play_next]: [popleft] and [play_song] when
    the deque is not empty, nothing otherwise. *)
Definition start_next : M unit :=
  q <- get_queue ;;
  match queue q with
  | next_song :: rest =>
      update_queue (set_queue rest) ;;
      play_song next_song
  | [] => ret tt
  end.

(** [play_next(ctx)]. *)
Definition play_next : M unit :=
  reinsert_current ;;
  start_next.

(** The [after] callback that [play_song] gives to the player:
    [play_next(ctx) if not e else ctx.send(f"Error: {e}")]. *)
Definition after (e : option string) : M unit :=
  match e with
  | None => play_next
  | Some err => send (PlaybackError err)
  end.

(** The first two statements of the [try] block of [play]: connect when
    the guild has no voice client, move when it is in another channel. *)
Definition join (ch : nat) (fails : option string) : M unit :=
  fun w =>
    match voice_client w with
    | None =>
        match fails with
        | Some e => (Raised e, w)
        | None =>
            (Returned tt,
             emit (Connect ch)
               (with_voice_client
                  (Some {| channel := ch; player := None |}) w))
        end
    | Some vc =>
        if Nat.eqb (channel vc) ch then (Returned tt, w)
        else
          match fails with
          | Some e => (Raised e, w)
          | None =>
              (Returned tt,
               emit (MoveTo ch)
                 (with_voice_client
                    (Some {| channel := ch; player := player vc |}) w))
          end
    end.

(** The [try] block of [play] with its handler, for a query that is not a
    Spotify URL.  [others] is what other tasks do while the extraction is
    awaited. *)
Definition play_search (ch : nat) (search : string) (others : World -> World)
    (a : attempt) : M unit :=
  try_except
    (join ch (connect_raises a) ;;
     source <- create_source search others (extracted a) ;;
     vc <- read voice_client ;;
     match vc with
     | None => raise "'NoneType' object has no attribute 'is_playing'"
     | Some vc =>
         if VoiceClient.is_playing vc
         then
           update_queue (fun q => set_queue (queue q ++ [source]) q) ;;
           d <- read (fun w => describe w source) ;;
           send (AddedToQueue (fst d) (snd d))
         else play_song source
     end)
    (fun e => send (ErrorOccurred e)).

(** The head of [play]: the author must be in a voice channel, then the
    [processing] flag is reset. *)
Definition play_entry (author : option nat) (body : nat -> M unit) : M unit :=
  match author with
  | None => send NeedVoiceChannel
  | Some ch =>
      update_queue (set_processing true) ;;
      body ch
  end.

(** [play(ctx, query)] for a query that is not a Spotify URL. *)
Definition play_direct (author : option nat) (search : string)
    (others : World -> World) (a : attempt) : M unit :=
  play_entry author (fun ch => play_search ch search others a).

(** [show_queue(ctx)]. *)
Definition show_queue : M unit :=
  q <- get_queue ;;
  match current q, queue q with
  | None, [] => send QueueEmpty
  | c, l =>
      w <- read (fun w => w) ;;
      send (QueueShown (option_map (describe w) c) (map (describe w) l))
  end.

(** [toggle_loop(ctx)]. *)
Definition toggle_loop : M unit :=
  update_queue (fun q => set_loop (negb (loop q)) q) ;;
  q <- get_queue ;;
  send (LoopMode (loop q)).

(** [volume(ctx, volume)]: [volume / 100] is written to the source the
    voice client is holding. *)
Definition volume (v : Z) : M unit :=
  if negb ((0 <=? v) && (v <=? 200))
  then send VolumeOutOfRange
  else
    vc <- read voice_client ;;
    match vc with
    | Some vc =>
        match VoiceClient.source vc with
        | Some s =>
            act (fun w => with_heap (set_src_volume s (v # 100) (heap w)) w) ;;
            send (VolumeSet v)
        | None => send NotPlayingAudio
        end
    | None => send NotPlayingAudio
    end.

(** [clear(ctx)]. *)
Definition clear : M unit :=
  update_queue (set_queue []) ;;
  send QueueCleared.

(** [stop(ctx)]. *)
Definition stop : M unit :=
  update_queue (set_processing false) ;;
  update_queue (set_queue []) ;;
  vc <- read voice_client ;;
  match vc with
  | Some vc => act (VoiceClient.stop vc)
  | None => ret tt
  end ;;
  send StoppedPlaying.

(** [disconnect(ctx)]. *)
Definition disconnect : M unit :=
  update_queue (set_processing false) ;;
  update_queue (set_queue []) ;;
  vc <- read voice_client ;;
  match vc with
  | Some vc =>
      act (VoiceClient.disconnect vc) ;;
      send DisconnectedFromVoice
  | None => ret tt
  end.

(** [skip(ctx)]. *)
Definition skip : M unit :=
  vc <- read voice_client ;;
  match vc with
  | None => send NoSongPlaying
  | Some vc =>
      if negb (VoiceClient.is_playing vc) then send NoSongPlaying
      else
        act (VoiceClient.stop vc) ;;
        q <- get_queue ;;
        match queue q with
        | _ :: _ => play_next
        | [] =>
            update_queue (set_current None) ;;
            send NoMoreSongs
        end
  end.

(** The event loop runs one command or event to its end. *)
Definition dispatch (c : cmd) (w : World) : World :=
  match c with
  | PlayNow author search a =>
      finish (play_direct author search (fun w => w) a) w
  | ShowQueue => finish show_queue w
  | ToggleLoop => finish toggle_loop w
  | SetVolume v => finish (volume v) w
  | Clear => finish clear w
  | Stop => finish stop w
  | Disconnect => finish disconnect w
  | Skip => finish skip w
  | StreamEnds e => VoiceClient.stream_ends e w
  | RunCallback =>
      match callbacks w with
      | [] => w
      | e :: rest => finish (after e) (with_callbacks rest w)
      end
  | VoiceStateUpdate humans => MusicBot.on_voice_state_update humans w
  | WakeUp humans =>
      match sleepers w with
      | O => w
      | S n =>
          finish (MusicBot.on_voice_state_update_resumed humans)
            (with_sleepers n w)
      end
  end.

(** Other tasks run [l] while this one is suspended. *)
Definition interleave (l : list cmd) (w : World) : World :=
  fold_left (fun w c => dispatch c w) l w.

(** The [for track in tracks] loop of [process_spotify_url]; [stopped] is
    the message of the branch and [play_track] the [play] of one track. *)
Fixpoint for_each (play_track : subitem -> M unit) (stopped : message)
    (tracks : list subitem) : M unit :=
  match tracks with
  | [] => ret tt
  | track :: rest =>
      q <- get_queue ;;
      if negb (processing q)
      then send stopped
      else play_track track ;; for_each play_track stopped rest
  end.

(** [play_track]:
    [await self.play(ctx, query=f"{track['title']} {track['artist']}")]
    inside [process_spotify_url].  After the head of [play],
    [is_spotify_url(query)] raises, outside every [try] of [play], or
    sends the query to [process_spotify_url], or lets it pass to the
    [try] block.

    [process_spotify_url(ctx, url)]: a client call gives its answer or
    raises ([inl]); the exception of a client call or of a nested [play]
    ends the method with a report. *)
Fixpoint play_track (t : subitem) {struct t} : M unit :=
  play_entry (sub_author t)
    (fun ch =>
       match sub_play t with
       | UrlRaises e => raise e
       | AsSpotifyUrl api => process_spotify_url (search_of t) api
       | AsSearch during a _ =>
           play_search ch (search_of t) (interleave during) a
       end) ;;
  act (interleave (sub_after t))
with process_spotify_url (url : string) (api : spotify_api) {struct api}
  : M unit :=
  try_except
    (if contains "track" url then
       match get_track_info api with
       | inl e => raise e
       | inr track_info =>
           q <- get_queue ;;
           if processing q then play_track track_info else ret tt
       end
     else if contains "playlist" url then
       match get_playlist_tracks api with
       | inl e => raise e
       | inr tracks => for_each play_track StoppedPlaylist tracks
       end
     else if contains "album" url then
       match get_album_tracks api with
       | inl e => raise e
       | inr tracks => for_each play_track StoppedAlbum tracks
       end
     else send InvalidSpotifyUrl)
    (fun e => send (SpotifyError e)).

(** The loop over the tracks of a playlist or an album. *)
Definition for_tracks (stopped : message) (tracks : list subitem) : M unit :=
  for_each play_track stopped tracks.

(** [play(ctx, query)]. *)
Definition play (author : option nat) (q : query) : M unit :=
  play_entry author
    (fun ch =>
       match q with
       | BadUrl _ e => raise e
       | SpotifyUrl url api => process_spotify_url url api
       | SearchTerm text during a => play_search ch text (interleave during) a
       end).

End Music.

(** The bot serves one request after the other. *)
Definition handle (r : request) (w : World) : World :=
  match r with
  | Command c => Music.dispatch c w
  | Play author q => finish (Music.play author q) w
  end.

Definition run (rs : list request) (w : World) : World :=
  fold_left (fun w r => handle r w) rs w.

(** ** Notions the properties are stated with *)

(** The sources a queue object holds as [current]. *)
Definition playing_now (c : option ref) : list ref :=
  match c with
  | Some s => [s]
  | None => []
  end.

(** No source is held twice by [current] and the deque together, and all
    of them are objects that exist ([n] is the size of the heap). *)
Definition good (c : option ref) (l : list ref) (n : nat) : Prop :=
  NoDup (playing_now c ++ l) /\
  Forall (fun s => (s < n)%nat) (playing_now c ++ l).

Definition inv (w : World) : Prop :=
  good (current (mq w)) (queue (mq w)) (List.length (heap w)).

(** Whether the voice client is streaming the source [s]. *)
Definition streaming (w : World) (s : ref) : Prop :=
  exists vc, voice_client w = Some vc /\ player vc = Some (s, true).

(** The searches handed to the extractor, oldest first. *)
Definition extractions (w : World) : list string :=
  rev (flat_map (fun e => match e with Extract s => [s] | _ => [] end)
         (trace w)).

(** How often a failure of [play] was reported. *)
Definition is_failure (e : effect) : bool :=
  match e with
  | Send (ErrorOccurred _) => true
  | _ => false
  end.

Definition failures (w : World) : nat :=
  List.length (filter is_failure (trace w)).

(** How often the voice client was told to leave. *)
Definition is_leave (e : effect) : bool :=
  match e with
  | Leave => true
  | _ => false
  end.

Definition disconnects (w : World) : nat :=
  List.length (filter is_leave (trace w)).

(** A track of an expansion whose query is a search term, during whose
    [play] no other task runs, whose author is in the voice channel [ch]
    and for which joining does not fail. *)
Definition quiet (ch : nat) (t : subitem) : Prop :=
  sub_author t = Some ch /\
  sub_play t = AsSearch [] (sub_attempt t) [] /\
  connect_raises (sub_attempt t) = None.

(** The track [t] with [l] as the commands other tasks run while its
    confirmation is sent. *)
Definition then_run (l : list cmd) (t : subitem) : subitem :=
  {| sub_track := sub_track t; sub_author := sub_author t;
     sub_play := match sub_play t with
                 | AsSearch during a _ => AsSearch during a l
                 | p => p
                 end |}.

(** The source objects the tracks that resolve become. *)
Definition sources_of (tracks : list subitem) : list YTDLSource :=
  flat_map
    (fun t =>
       match extracted (sub_attempt t) with
       | inr d => [{| src_title := data_title d;
                      src_duration := data_duration d; src_volume := 1 |}]
       | inl _ => []
       end) tracks.

(** The tracks whose extraction fails. *)
Definition failing (tracks : list subitem) : list subitem :=
  filter (fun t => match extracted (sub_attempt t) with
                   | inl _ => true
                   | inr _ => false
                   end) tracks.

(** Whether the voice client is streaming anything. *)
Definition busy (w : World) : bool :=
  match voice_client w with
  | Some vc => VoiceClient.is_playing vc
  | None => false
  end.

(** Every source object from address [lo] on is the current source of a
    streaming player or is in the deque. *)
Definition kept (lo : nat) (w : World) : Prop :=
  forall i, (lo <= i < List.length (heap w))%nat ->
    (current (mq w) = Some i /\ busy w = true) \/ In i (queue (mq w)).

(** *** Requests used as examples *)

Definition found (title : string) : attempt :=
  {| connect_raises := None;
     extracted := inr {| data_title := title; data_duration := Some (215 # 1) |} |}.


Definition play_song_request (title : string) : request :=
  Command (PlayNow (Some 1%nat) title (found title)).

Definition track_of (title : string) (a : attempt) (and_then : list cmd)
  : subitem :=
  {| sub_track := {| td_title := title; td_artist := "artist" |};
     sub_author := Some 1%nat; sub_play := AsSearch [] a and_then |}.

(** A room playing song A with song B pending. *)
Definition playing_A_pending_B : World :=
  run [play_song_request "A"; play_song_request "B"] init.

(** Five tracks: the first, the second and the remaining three. *)
Definition five_tracks : list subitem * subitem * list subitem :=
  ([track_of "one" (found "one") []], track_of "two" (found "two") [],
   [track_of "three" (found "three") []; track_of "four" (found "four") [];
    track_of "five" (found "five") []]).


(** ** The Spotify client *)

(** A track object of the Web API, as far as [SpotifyClient] reads it: its
    name and the names of its artists (the album name is copied into the
    dictionaries and never used by the bot). *)
Record spotify_track := {
  sp_name : string;
  sp_artists : list string
}.

(** What [spotify.playlist_tracks], [spotify.album_tracks] and then
    [spotify.next] answer: a page of items whose [next] is set, followed
    by what fetching it gives; a page whose [next] is [None]; an exception;
    or a falsy answer, which ends the [while results] loop. *)
Inductive results (A : Type) :=
| Page (items : list A) (next : results A)
| LastPage (items : list A)
| Failed (e : string)
| Nothing.
Arguments Page {A} items next.
Arguments LastPage {A} items.
Arguments Failed {A} e.
Arguments Nothing {A}.

Module SpotifyClient.

(** The dictionary built from one track; [track['artists'][0]] fails on a
    track without artists. *)
Definition entry (track : spotify_track) : string + track_dict :=
  match sp_artists track with
  | [] => inl "list index out of range"
  | artist :: _ => inr {| td_title := sp_name track; td_artist := artist |}
  end.

(** [get_track_info(url)]; the argument is what [spotify.track(url)]
    gives. *)
Definition get_track_info (r : string + spotify_track)
  : string + track_dict :=
  match r with
  | inl e => inl e
  | inr track => entry track
  end.

(** The [for item in results['items']] loop of [get_playlist_tracks]:
    an item whose [track] is [None] is passed over. *)
Fixpoint playlist_items (items : list (option spotify_track))
    (tracks : list track_dict) : string + list track_dict :=
  match items with
  | [] => inr tracks
  | None :: rest => playlist_items rest tracks
  | Some track :: rest =>
      match entry track with
      | inl e => inl e
      | inr d => playlist_items rest (tracks ++ [d])
      end
  end.

(** The [for track in results['items']] loop of [get_album_tracks]. *)
Fixpoint album_items (items : list spotify_track)
    (tracks : list track_dict) : string + list track_dict :=
  match items with
  | [] => inr tracks
  | track :: rest =>
      match entry track with
      | inl e => inl e
      | inr d => album_items rest (tracks ++ [d])
      end
  end.

(** The [while results] loop both methods share, [tracks] being the list
    built so far. *)
Fixpoint pages {A} (page_items : list A -> list track_dict ->
                                 string + list track_dict)
    (r : results A) (tracks : list track_dict) : string + list track_dict :=
  match r with
  | Nothing => inr tracks
  | Failed e => inl e
  | LastPage items => page_items items tracks
  | Page items next =>
      match page_items items tracks with
      | inl e => inl e
      | inr tracks' => pages page_items next tracks'
      end
  end.

(** [get_playlist_tracks(url)]. *)
Definition get_playlist_tracks (r : results (option spotify_track))
  : string + list track_dict :=
  pages playlist_items r [].

(** [get_album_tracks(url)]. *)
Definition get_album_tracks (r : results spotify_track)
  : string + list track_dict :=
  pages album_items r [].

End SpotifyClient.

(** The tracks of all pages, in order, up to the end of the paging. *)
Fixpoint all_items {A} (r : results A) : list A :=
  match r with
  | Page items next => items ++ all_items next
  | LastPage items => items
  | Failed _ => []
  | Nothing => []
  end.

(** Whether a request of the paging fails. *)
Fixpoint request_fails {A} (r : results A) : bool :=
  match r with
  | Page _ next => request_fails next
  | Failed _ => true
  | _ => false
  end.

(** The tracks of a playlist page that are not [None]. *)
Definition present (items : list (option spotify_track))
  : list spotify_track :=
  flat_map (fun i => match i with Some t => [t] | None => [] end) items.

(** The dictionary of a track that has an artist. *)
Definition dict_of (t : spotify_track) : track_dict :=
  {| td_title := sp_name t; td_artist := hd "" (sp_artists t) |}.

(** ** The queues of all guilds *)

(** [bot.music_queues]: the dictionary from guild ids to queue objects. *)
Definition music_queues := list (nat * MusicQueue).

Fixpoint queue_of (guild : nat) (m : music_queues) : option MusicQueue :=
  match m with
  | [] => None
  | (g, q) :: rest => if Nat.eqb g guild then Some q else queue_of guild rest
  end.

(** [Music.get_queue(ctx)] on the dictionary: the queue of the guild,
    created with the constructor's values when the guild has none. *)
Definition get_queue_of (guild : nat) (m : music_queues)
  : MusicQueue * music_queues :=
  match queue_of guild m with
  | Some q => (q, m)
  | None => (new_queue, (guild, new_queue) :: m)
  end.

(** ** Further notions *)

(** The sources the voice client accepted, oldest first. *)
Definition starts (w : World) : list ref :=
  rev (flat_map (fun e => match e with Start s => [s] | _ => [] end)
         (trace w)).

(** The stream of the playing source ends normally and its callback
    runs. *)
Definition completion : list request :=
  [Command (StreamEnds None); Command RunCallback].

Fixpoint completions (n : nat) : list request :=
  match n with
  | O => []
  | S n' => completion ++ completions n'
  end.

(** Every source object of [h] is in [h'] at its address, with its title
    and duration. *)
Definition heap_grows (h h' : list YTDLSource) : Prop :=
  forall s src, nth_error h s = Some src ->
    exists v, nth_error h' s =
      Some {| src_title := src_title src; src_duration := src_duration src;
              src_volume := v |}.

(** An extraction that succeeds with [d], joining included. *)
Definition resolves (d : data) : attempt :=
  {| connect_raises := None; extracted := inr d |}.

(** The source object made from [d]. *)
Definition source_of (d : data) : YTDLSource :=
  {| src_title := data_title d; src_duration := data_duration d;
     src_volume := 1 |}.

(** The sources of [w] are kept in [w']. *)
Definition grows (w w' : World) : Prop := heap_grows (heap w) (heap w').

(** A coroutine that keeps the sources, however it ends. *)
Definition keeps_sources {A} (m : M A) : Prop :=
  forall w, grows w (snd (m w)).

(** * Properties *)

(** ** The duration formatter *)

Lemma fmt_02d_two_digits (n : Z) : 0 <= n < 60 -> fmt_02d n = two_digits n.
Proof.
  intros H.
  assert (E : exists k : nat, (k < 60)%nat /\ n = Z.of_nat k).
  { exists (Z.to_nat n). split; lia. }
  destruct E as (k & Hk & ->). clear H.
  do 60 (destruct k as [|k]; [vm_compute; reflexivity|]).
  lia.
Qed.

Lemma hours_positive_iff (d : Q) :
  Qle_bool 3600 d = (0 <? py_int d / 3600).
Proof.
  destruct d as [n p]. unfold Qle_bool, py_int. cbn [Qnum Qden].
  destruct (Z.leb_spec (3600 * Z.pos p) (n * 1)) as [H|H];
    symmetry.
  - apply Z.ltb_lt.
    assert (0 <= n) by lia.
    rewrite Z.quot_div_nonneg by lia.
    assert (3600 <= n / Z.pos p) by (apply Z.div_le_lower_bound; lia).
    assert (1 <= n / Z.pos p / 3600) by (apply Z.div_le_lower_bound; lia).
    lia.
  - apply Z.ltb_ge.
    assert (n ÷ Z.pos p < 3600).
    { destruct (Z.le_gt_cases 0 n).
      - apply Z.quot_lt_upper_bound; lia.
      - assert (n ÷ Z.pos p <= 0); [|lia].
        apply Z.quot_le_upper_bound; lia. }
    assert (n ÷ Z.pos p / 3600 < 1) by (apply Z.div_lt_upper_bound; lia).
    lia.
Qed.

(** C10.  [format_duration] is a function on every duration: [None] gives
    "Unknown"; a duration of at least 3600 seconds gives H:MM:SS and a
    shorter one M:SS, where H, M, S split the whole seconds of the duration
    and minutes and seconds are written with exactly two digits. *)
Theorem format_duration_shape :
  format_duration None = "Unknown" /\
  forall d : Q, exists h m s : Z,
    py_int d = 3600 * h + 60 * m + s /\
    0 <= m < 60 /\ 0 <= s < 60 /\
    Qle_bool 3600 d = (0 <? h) /\
    format_duration (Some d) =
      if Qle_bool 3600 d
      then str h ++ ":" ++ two_digits m ++ ":" ++ two_digits s
      else str m ++ ":" ++ two_digits s.
Proof.
  split; [reflexivity|].
  intros d.
  exists (py_int d / 3600), (py_int d mod 3600 / 60), (py_int d mod 3600 mod 60).
  pose proof (Z.mod_pos_bound (py_int d) 3600 ltac:(lia)) as Hr.
  pose proof (Z.mod_pos_bound (py_int d mod 3600) 60 ltac:(lia)) as Hs.
  assert (Hm : 0 <= py_int d mod 3600 / 60 < 60).
  { split; [apply Z.div_pos; lia | apply Z.div_lt_upper_bound; lia]. }
  repeat split; try lia.
  - pose proof (Z.div_mod (py_int d) 3600 ltac:(lia)).
    pose proof (Z.div_mod (py_int d mod 3600) 60 ltac:(lia)). lia.
  - apply hours_positive_iff.
  - unfold format_duration. rewrite hours_positive_iff.
    rewrite !fmt_02d_two_digits by lia. reflexivity.
Qed.

Example format_duration_hours :
  format_duration (Some (3725 # 1)%Q) = "1:02:05".
Proof. reflexivity. Qed.

Example format_duration_minutes :
  format_duration (Some (215 # 1)%Q) = "3:35".
Proof. reflexivity. Qed.

Example format_duration_fraction :
  format_duration (Some (7199 # 2)%Q) = "59:59".
Proof. reflexivity. Qed.

(** ** The queue never holds its current source *)

Lemma good_pop c x l n : good c (x :: l) n -> good (Some x) l n.
Proof.
  unfold good. destruct c; cbn; intros [Hd Hb]; split; auto.
  - now inversion Hd.
  - now inversion Hb.
Qed.

Lemma good_clear c l n : good c l n -> good c [] n.
Proof.
  unfold good. destruct c; cbn; intros [Hd Hb]; split;
    repeat constructor; auto.
  now inversion Hb.
Qed.

Lemma good_drop c l n : good c l n -> good None l n.
Proof.
  unfold good. destruct c; cbn; intros [Hd Hb]; split; auto.
  - now inversion Hd.
  - now inversion Hb.
Qed.

Lemma bound_fresh l n :
  Forall (fun s => (s < n)%nat) l -> ~ In n l /\ Forall (fun s => (s < S n)%nat) l.
Proof.
  intros H. split.
  - intros Hin. rewrite Forall_forall in H. specialize (H _ Hin). lia.
  - eapply Forall_impl; [|exact H]. cbn; intros; lia.
Qed.

Lemma good_grow c l n : good c l n -> good c l (S n).
Proof.
  intros [Hd Hb]. split; auto. now apply bound_fresh.
Qed.

Lemma good_start_fresh c l n : good c l n -> good (Some n) l (S n).
Proof.
  intros H. apply good_drop in H. destruct H as [Hd Hb].
  unfold good in *; cbn in *.
  destruct (bound_fresh _ _ Hb). split; constructor; auto.
Qed.

Lemma NoDup_snoc (x : ref) l : NoDup l -> ~ In x l -> NoDup (l ++ [x]).
Proof.
  induction l as [|y l IH]; cbn; intros Hd Hn.
  - constructor; auto.
  - inversion Hd; subst. constructor.
    + rewrite in_app_iff. cbn. intuition congruence.
    + apply IH; tauto.
Qed.

Lemma good_append_fresh c l n : good c l n -> good c (l ++ [n]) (S n).
Proof.
  unfold good. rewrite !app_assoc. intros [Hd Hb].
  destruct (bound_fresh _ _ Hb) as [Hn Hb'].
  split.
  - now apply NoDup_snoc.
  - apply Forall_app; split; auto.
Qed.

Lemma length_set_src_volume s v h :
  List.length (set_src_volume s v h) = List.length h.
Proof.
  revert s; induction h as [|x h IH]; intros [|s]; cbn; auto.
Qed.

Ltac break :=
  repeat (cbn in *;
    match goal with
    | |- context [match ?x with _ => _ end] => is_var x; destruct x
    | |- context [if ?x then _ else _] => is_var x; destruct x
    end);
  repeat (cbn in *;
    match goal with
    | |- context [match ?x with _ => _ end] =>
        lazymatch x with
        | context [match _ with _ => _ end] => fail
        | _ => destruct x eqn:?
        end
    end).

Ltac open_world w :=
  destruct w as [[? ? ? ? ?] ? ? ? ? ?];
  unfold inv in *; cbn in *.

Ltac close :=
  cbn in *; rewrite ?length_app, ?length_set_src_volume, ?Nat.add_1_r in *; cbn in *;
  eauto using good_pop, good_clear, good_drop, good_grow, good_start_fresh,
    good_append_fresh.

Lemma inv_play_next w : inv w -> inv (snd (Music.play_next w)).
Proof.
  open_world w. intros H.
  unfold Music.play_next, Music.reinsert_current, Music.start_next,
    Music.play_song, Music.update_queue, Music.get_queue, VoiceClient.play,
    send, bind, act, read, ret.
  break; subst; close.
Qed.

Ltac unfold_music :=
  unfold Music.play, Music.play_direct, Music.play_entry, Music.play_search,
    Music.join, create_source, Music.skip, Music.stop, Music.disconnect,
    Music.clear, Music.volume, Music.toggle_loop, Music.show_queue,
    Music.after, Music.play_next, Music.reinsert_current, Music.start_next,
    Music.play_song, Music.update_queue, Music.get_queue,
    MusicBot.on_voice_state_update, MusicBot.on_voice_state_update_resumed,
    VoiceClient.play, VoiceClient.stop, VoiceClient.disconnect,
    VoiceClient.stream_ends, finish, try_except, send, raise, bind, act,
    read, ret.

Lemma inv_finish (m : M unit) :
  (forall w, inv w -> inv (snd (m w))) ->
  forall w, inv w -> inv (finish m w).
Proof.
  intros Hm w H. specialize (Hm w H). unfold finish.
  destruct (m w) as [[a|e] w']; cbn in *; auto.
Qed.

Lemma inv_after e w : inv w -> inv (snd (Music.after e w)).
Proof.
  destruct e; [open_world w; intros H; unfold_music; break; close|].
  apply inv_play_next.
Qed.

Lemma inv_skip w : inv w -> inv (snd (Music.skip w)).
Proof. open_world w. intros H. unfold_music. break; subst; close. Qed.

Lemma inv_stop w : inv w -> inv (snd (Music.stop w)).
Proof. open_world w. intros H. unfold_music. break; subst; close. Qed.

Lemma inv_disconnect w : inv w -> inv (snd (Music.disconnect w)).
Proof. open_world w. intros H. unfold_music. break; subst; close. Qed.

Lemma inv_clear w : inv w -> inv (snd (Music.clear w)).
Proof. open_world w. intros H. unfold_music. break; subst; close. Qed.

Lemma inv_volume v w : inv w -> inv (snd (Music.volume v w)).
Proof. open_world w. intros H. unfold_music. break; subst; close. Qed.

Lemma inv_toggle_loop w : inv w -> inv (snd (Music.toggle_loop w)).
Proof. open_world w. intros H. unfold_music. break; subst; close. Qed.

Lemma inv_show_queue w : inv w -> inv (snd (Music.show_queue w)).
Proof. open_world w. intros H. unfold_music. break; subst; close. Qed.

Lemma inv_stream_ends e w : inv w -> inv (VoiceClient.stream_ends e w).
Proof. open_world w. intros H. unfold_music. break; subst; close. Qed.

Lemma inv_voice_update n w : inv w -> inv (MusicBot.on_voice_state_update n w).
Proof. open_world w. intros H. unfold_music. break; subst; close. Qed.

Lemma inv_resumed n w :
  inv w -> inv (snd (MusicBot.on_voice_state_update_resumed n w)).
Proof. open_world w. intros H. unfold_music. break; subst; close. Qed.

Lemma inv_emit e w : inv w -> inv (emit e w).
Proof. open_world w. auto. Qed.

Lemma inv_bind {A B} (m : M A) (k : A -> M B) :
  (forall w, inv w -> inv (snd (m w))) ->
  (forall a w, inv w -> inv (snd (k a w))) ->
  forall w, inv w -> inv (snd (bind m k w)).
Proof.
  intros Hm Hk w H. unfold bind. specialize (Hm w H).
  destruct (m w) as [[a|e] w']; cbn in *; auto.
Qed.

Lemma inv_try_except {A} (m : M A) (h : string -> M A) :
  (forall w, inv w -> inv (snd (m w))) ->
  (forall e w, inv w -> inv (snd (h e w))) ->
  forall w, inv w -> inv (snd (try_except m h w)).
Proof.
  intros Hm Hh w H. unfold try_except. specialize (Hm w H).
  destruct (m w) as [[a|e] w']; cbn in *; auto.
Qed.

Lemma inv_join ch fails w : inv w -> inv (snd (Music.join ch fails w)).
Proof. open_world w. intros H. unfold_music. break; subst; close. Qed.

Lemma inv_send m w : inv w -> inv (snd (send m w)).
Proof. open_world w. auto. Qed.

Lemma inv_play_search ch search others a :
  (forall w, inv w -> inv (others w)) ->
  forall w, inv w -> inv (snd (Music.play_search ch search others a w)).
Proof.
  intros Hoth. unfold Music.play_search.
  apply inv_try_except; [|intros; now apply inv_send].
  apply inv_bind; [intros; now apply inv_join|].
  intros _ w H.
  assert (H1 : inv (others (emit (Extract search) w)))
    by now apply Hoth, inv_emit.
  unfold create_source, bind at 1 2 3, act. cbn.
  revert H1. generalize (others (emit (Extract search) w)) as w1.
  clear. intros w1 H. open_world w1.
  unfold_music. break; subst; close.
Qed.

Lemma inv_play_direct author search others a :
  (forall w, inv w -> inv (others w)) ->
  forall w, inv w -> inv (snd (Music.play_direct author search others a w)).
Proof.
  intros Hoth w H. unfold Music.play_direct, Music.play_entry.
  destruct author as [ch|]; [|now apply inv_send].
  revert w H. apply inv_bind.
  - intros w H. open_world w. auto.
  - intros _. now apply inv_play_search.
Qed.

Lemma inv_dispatch c w : inv w -> inv (Music.dispatch c w).
Proof.
  intros H. destruct c; cbn [Music.dispatch].
  - apply inv_finish; auto. now apply inv_play_direct.
  - apply inv_finish; auto using inv_show_queue.
  - apply inv_finish; auto using inv_toggle_loop.
  - apply inv_finish; auto using inv_volume.
  - apply inv_finish; auto using inv_clear.
  - apply inv_finish; auto using inv_stop.
  - apply inv_finish; auto using inv_disconnect.
  - apply inv_finish; auto using inv_skip.
  - now apply inv_stream_ends.
  - destruct (callbacks w) eqn:E; auto.
    apply inv_finish; [intros; now apply inv_after|].
    open_world w; auto.
  - now apply inv_voice_update.
  - destruct (sleepers w) eqn:E; auto.
    apply inv_finish; [intros; now apply inv_resumed|].
    open_world w; auto.
Qed.

Lemma inv_interleave l : forall w, inv w -> inv (Music.interleave l w).
Proof.
  unfold Music.interleave.
  induction l as [|c l IH]; cbn; intros w H; auto using inv_dispatch.
Qed.

(** The two functions of the expansion, unfolded once. *)
Lemma play_track_eq t :
  Music.play_track t =
  (Music.play_entry (sub_author t)
     (fun ch =>
        match sub_play t with
        | UrlRaises e => raise e
        | AsSpotifyUrl api => Music.process_spotify_url (search_of t) api
        | AsSearch during a _ =>
            Music.play_search ch (search_of t) (Music.interleave during) a
        end) ;;
   act (Music.interleave (sub_after t)))%co.
Proof. destruct t; reflexivity. Qed.

Lemma process_spotify_url_eq url api :
  Music.process_spotify_url url api =
  try_except
    (if contains "track" url then
       match get_track_info api with
       | inl e => raise e
       | inr track_info =>
           (q <- Music.get_queue ;;
            if processing q then Music.play_track track_info else ret tt)%co
       end
     else if contains "playlist" url then
       match get_playlist_tracks api with
       | inl e => raise e
       | inr tracks => Music.for_tracks StoppedPlaylist tracks
       end
     else if contains "album" url then
       match get_album_tracks api with
       | inl e => raise e
       | inr tracks => Music.for_tracks StoppedAlbum tracks
       end
     else send InvalidSpotifyUrl)
    (fun e => send (SpotifyError e)).
Proof. destruct api; reflexivity. Qed.

Lemma for_tracks_cons stopped t rest :
  Music.for_tracks stopped (t :: rest) =
  (q <- Music.get_queue ;;
   if negb (processing q) then send stopped
   else Music.play_track t ;; Music.for_tracks stopped rest)%co.
Proof. reflexivity. Qed.

(** Induction over a track and the answers nested in it. *)
Section Expansion_induction.

Variable P : subitem -> Prop.
Variable Q : spotify_api -> Prop.

Hypothesis P_search :
  forall t during a after, sub_play t = AsSearch during a after -> P t.
Hypothesis P_raises : forall t e, sub_play t = UrlRaises e -> P t.
Hypothesis P_spotify :
  forall t api, sub_play t = AsSpotifyUrl api -> Q api -> P t.
Hypothesis Q_answers :
  forall api,
    (forall t, get_track_info api = inr t -> P t) ->
    (forall l, get_playlist_tracks api = inr l -> Forall P l) ->
    (forall l, get_album_tracks api = inr l -> Forall P l) ->
    Q api.

Fixpoint subitem_nested_ind (t : subitem) : P t
with spotify_api_nested_ind (api : spotify_api) : Q api.
Proof.
  - destruct t as [tr au [during a after|e|api]].
    + now apply (P_search _ during a after).
    + now apply (P_raises _ e).
    + apply (P_spotify _ api); [reflexivity|].
      apply spotify_api_nested_ind.
  - destruct api as [ti pl al]. apply Q_answers; cbn.
    + intros t Ht. destruct ti as [e|t0]; [discriminate|].
      injection Ht as <-. apply subitem_nested_ind.
    + intros l Hl. destruct pl as [e|l0]; [discriminate|].
      injection Hl as <-. induction l0 as [|t l0 IH]; constructor.
      * apply subitem_nested_ind.
      * exact IH.
    + intros l Hl. destruct al as [e|l0]; [discriminate|].
      injection Hl as <-. induction l0 as [|t l0 IH]; constructor.
      * apply subitem_nested_ind.
      * exact IH.
Qed.

End Expansion_induction.

Lemma inv_for_tracks stopped tracks :
  Forall (fun t => forall w, inv w -> inv (snd (Music.play_track t w)))
    tracks ->
  forall w, inv w -> inv (snd (Music.for_tracks stopped tracks w)).
Proof.
  induction 1 as [|t rest Ht _ IH]; intros w H; [exact H|].
  rewrite for_tracks_cons.
  unfold bind at 1, Music.get_queue, read.
  destruct (processing (mq w)); cbn [negb].
  - apply inv_bind; auto.
  - now apply inv_send.
Qed.

Lemma inv_play_track_search t w during a after :
  sub_play t = AsSearch during a after ->
  inv w -> inv (snd (Music.play_track t w)).
Proof.
  intros Hp. rewrite play_track_eq, Hp. unfold sub_after. rewrite Hp.
  apply inv_bind.
  - apply (inv_play_direct (sub_author t) (search_of t)
             (Music.interleave during) a), inv_interleave.
  - intros _ w' H. cbn. now apply inv_interleave.
Qed.

Lemma inv_entry author (body : nat -> M unit) :
  (forall ch w, inv w -> inv (snd (body ch w))) ->
  forall w, inv w -> inv (snd (Music.play_entry author body w)).
Proof.
  intros Hb. unfold Music.play_entry.
  destruct author as [ch|]; [|intros; now apply inv_send].
  apply inv_bind.
  - intros w H. open_world w. auto.
  - intros _. apply Hb.
Qed.

Lemma inv_play_track t : forall w, inv w -> inv (snd (Music.play_track t w)).
Proof.
  revert t.
  apply (subitem_nested_ind
           (fun t => forall w, inv w -> inv (snd (Music.play_track t w)))
           (fun api => forall url w,
                inv w -> inv (snd (Music.process_spotify_url url api w)))).
  - intros t during a after Hp w. now apply (inv_play_track_search t w during a after).
  - intros t e Hp. rewrite play_track_eq, Hp. unfold sub_after. rewrite Hp.
    apply inv_bind; [|intros _ w H; exact H].
    apply inv_entry. intros ch w H. exact H.
  - intros t api Hp IH. rewrite play_track_eq, Hp. unfold sub_after.
    rewrite Hp. apply inv_bind; [|intros _ w H; exact H].
    apply inv_entry. intros ch. apply IH.
  - intros api Ht Hpl Hal url. rewrite process_spotify_url_eq.
    apply inv_try_except; [|intros; now apply inv_send].
    intros w H.
    destruct (contains "track" url).
    + destruct (get_track_info api) as [e|t]; cbn; auto.
      unfold bind, Music.get_queue, read, ret; cbn.
      destruct (processing (mq w)); auto.
    + destruct (contains "playlist" url).
      * destruct (get_playlist_tracks api) as [e|l]; cbn; auto.
        apply inv_for_tracks; auto.
      * destruct (contains "album" url); [|now apply inv_send].
        destruct (get_album_tracks api) as [e|l]; cbn; auto.
        apply inv_for_tracks; auto.
Qed.

Lemma inv_process_spotify_url url api w :
  inv w -> inv (snd (Music.process_spotify_url url api w)).
Proof.
  rewrite process_spotify_url_eq.
  apply inv_try_except; [|intros; now apply inv_send].
  clear w. intros w H.
  destruct (contains "track" url).
  - destruct (get_track_info api) as [e|t]; cbn; auto.
    unfold bind, Music.get_queue, read, ret; cbn.
    destruct (processing (mq w)); auto.
    now apply inv_play_track.
  - destruct (contains "playlist" url).
    + destruct (get_playlist_tracks api) as [e|t]; cbn; auto.
      apply inv_for_tracks; auto.
      apply Forall_forall. intros; now apply inv_play_track.
    + destruct (contains "album" url); [|now apply inv_send].
      destruct (get_album_tracks api) as [e|t]; cbn; auto.
      apply inv_for_tracks; auto.
      apply Forall_forall. intros; now apply inv_play_track.
Qed.

Lemma inv_play author q w : inv w -> inv (snd (Music.play author q w)).
Proof.
  revert w. unfold Music.play. apply inv_entry. intros ch. destruct q.
  - apply inv_play_search, inv_interleave.
  - intros w. apply inv_process_spotify_url.
  - intros w H. exact H.
Qed.

Lemma inv_handle r w : inv w -> inv (handle r w).
Proof.
  destruct r; cbn; intros H.
  - now apply inv_dispatch.
  - apply inv_finish; auto. intros; now apply inv_play.
Qed.

Lemma inv_run rs : forall w, inv w -> inv (run rs w).
Proof.
  unfold run. induction rs as [|r rs IH]; cbn; intros w H; auto using inv_handle.
Qed.

Lemma inv_init : inv init.
Proof. split; constructor. Qed.

(** C1.  After every sequence of requests (plays with their expansions
    and interleaved commands, completions, skip, stop, clear, loop,
    disconnect, the idle monitor) from the initial room, [current] is
    a single source or none (by its type) and the source it holds is not
    in the pending deque. *)
Theorem current_never_pending (rs : list request) (s : ref) :
  current (mq (run rs init)) = Some s -> ~ In s (queue (mq (run rs init))).
Proof.
  intros Hc. destruct (inv_run rs init inv_init) as [Hd _].
  rewrite Hc in Hd. cbn in Hd. now inversion Hd.
Qed.

Lemma current_never_pending_witness :
  current (mq (run [play_song_request "A"; play_song_request "B"] init))
    = Some 0%nat /\
  ~ In 0%nat
      (queue (mq (run [play_song_request "A"; play_song_request "B"] init))).
Proof.
  split.
  - reflexivity.
  - apply (current_never_pending
             [play_song_request "A"; play_song_request "B"] 0%nat).
    reflexivity.
Defined.

(** ** Skip and stop with loop on *)

(** With [loop] on and a pending track, [skip] on a playing room puts the
    skipped source back and starts it again. *)
Lemma skip_replays_under_loop (w : World) (vc : VoiceClient)
    (c x : ref) (rest : list ref) :
  loop (mq w) = true ->
  current (mq w) = Some c ->
  queue (mq w) = x :: rest ->
  voice_client w = Some vc ->
  VoiceClient.is_playing vc = true ->
  current (mq (finish Music.skip w)) = Some c /\
  queue (mq (finish Music.skip w)) = x :: rest /\
  streaming (finish Music.skip w) c.
Proof.
  destruct w as [[q cur lp vol pr] v h cbs sl tr]; cbn.
  intros -> -> -> -> Hp. unfold streaming.
  unfold_music; cbn. rewrite Hp; cbn.
  repeat split. eexists; split; reflexivity.
Qed.

(** C2.  The room plays A with B pending and loop on; [skip] leaves A as
    [current], started again, and B pending, where the claim has B as
    [current] and A gone. *)
Theorem skip_with_loop_keeps_skipped_track :
  let w := handle (Command ToggleLoop) playing_A_pending_B in
  let w' := handle (Command Skip) w in
  (loop (mq w) = true /\ current (mq w) = Some 0%nat /\
   queue (mq w) = [1%nat] /\ streaming w 0%nat) /\
  current (mq w') = Some 0%nat /\ queue (mq w') = [1%nat] /\
  streaming w' 0%nat /\
  hd_error (trace w') = Some (Send (NowPlaying "A" "3:35")).
Proof.
  cbv zeta. unfold streaming. vm_compute.
  repeat split; eexists; split; reflexivity.
Qed.

(** With [loop] on, the completion that [stop] forces starts the stopped
    source again. *)
Lemma stop_restarts_under_loop (w : World) (vc : VoiceClient) (c : ref) :
  loop (mq w) = true ->
  current (mq w) = Some c ->
  voice_client w = Some vc ->
  player vc = Some (c, true) ->
  callbacks w = [] ->
  let w' := Music.dispatch RunCallback (finish Music.stop w) in
  processing (mq w') = false /\ queue (mq w') = [] /\
  current (mq w') = Some c /\ streaming w' c.
Proof.
  destruct w as [[q cur lp vol pr] v h cbs sl tr]; cbn.
  intros -> -> -> Hp ->. unfold streaming.
  unfold Music.dispatch. unfold_music. unfold VoiceClient.is_playing.
  cbn. rewrite Hp; cbn.
  repeat split. eexists; split; reflexivity.
Qed.

(** C3.  [stop] on a room playing A, then the completion it forces: with
    loop on, A is started again and stays [current]; with loop off the
    player is silent but [current] still holds A.  The claim has the room
    idle with [current] none in both cases. *)
Theorem stop_leaves_current_set :
  let playing := run [play_song_request "A"] init in
  let looping := handle (Command ToggleLoop) playing in
  let stopped w := run [Command Stop; Command RunCallback] w in
  (processing (mq (stopped looping)) = false /\
   queue (mq (stopped looping)) = [] /\
   current (mq (stopped looping)) = Some 0%nat /\
   streaming (stopped looping) 0%nat) /\
  (processing (mq (stopped playing)) = false /\
   queue (mq (stopped playing)) = [] /\
   current (mq (stopped playing)) = Some 0%nat /\
   voice_client (stopped playing) = Some {| channel := 1; player := None |}).
Proof.
  cbv zeta. unfold streaming. vm_compute.
  repeat split. eexists; split; reflexivity.
Qed.

(** ** Completion of a track *)

(** C4, as stated, fails: with loop on and B pending, the normal end of A
    does not make B current with A recurring after it; A is current
    again. *)
Lemma loop_does_not_rotate :
  ~ (forall (w : World) (c x : ref) (rest : list ref),
       loop (mq w) = true ->
       current (mq w) = Some c ->
       queue (mq w) = x :: rest ->
       streaming w c ->
       callbacks w = [] ->
       let w' := run [Command (StreamEnds None); Command RunCallback] w in
       current (mq w') = Some x /\ In c (queue (mq w'))).
Proof.
  intros claim.
  destruct (claim (handle (Command ToggleLoop) playing_A_pending_B)
              0%nat 1%nat []) as [Hc _]; try reflexivity.
  - eexists; split; reflexivity.
  - vm_compute in Hc. discriminate Hc.
Qed.

(** C4, amended.  With loop on, the normal end of the current source [c]
    puts [c] at the front of the deque before the next source is chosen,
    so [c] itself is chosen: it is current again and streaming again, and
    the deque is as it was. *)
Theorem loop_replays_finished_track (w : World) (c : ref) :
  loop (mq w) = true ->
  current (mq w) = Some c ->
  streaming w c ->
  callbacks w = [] ->
  let ended := Music.dispatch (StreamEnds None) w in
  let w' := Music.dispatch RunCallback ended in
  callbacks ended = [None] /\
  queue (mq (snd (Music.reinsert_current ended))) = c :: queue (mq w) /\
  current (mq w') = Some c /\
  queue (mq w') = queue (mq w) /\
  streaming w' c /\
  trace w' =
    Send (NowPlaying (fst (describe w c)) (snd (describe w c)))
      :: Start c :: trace w.
Proof.
  unfold streaming. destruct w as [[q cur lp vol pr] v h cbs sl tr]; cbn.
  intros -> -> (vc & -> & Hp) ->.
  unfold Music.dispatch. unfold_music. cbn. rewrite Hp. cbn.
  repeat split. eexists; split; reflexivity.
Qed.

Lemma loop_replays_finished_track_witness :
  let w := handle (Command ToggleLoop) playing_A_pending_B in
  let w' := run [Command (StreamEnds None); Command RunCallback] w in
  current (mq w') = Some 0%nat /\ queue (mq w') = [1%nat] /\
  streaming w' 0%nat.
Proof.
  cbv zeta.
  destruct (loop_replays_finished_track
              (handle (Command ToggleLoop) playing_A_pending_B) 0%nat)
    as (_ & _ & Hc & Hq & Hs & _).
  - reflexivity.
  - reflexivity.
  - eexists; split; reflexivity.
  - reflexivity.
  - split; [exact Hc | split; [exact Hq | exact Hs]].
Defined.

(** C5, as stated, fails: when the stream of A fails with B pending, B
    does not become current. *)
Lemma playback_error_does_not_advance :
  ~ (forall (w : World) (c x : ref) (rest : list ref) (e : string),
       current (mq w) = Some c ->
       queue (mq w) = x :: rest ->
       streaming w c ->
       callbacks w = [] ->
       let w' := run [Command (StreamEnds (Some e)); Command RunCallback] w in
       current (mq w') = Some x /\ streaming w' x).
Proof.
  intros claim.
  destruct (claim playing_A_pending_B 0%nat 1%nat [] "broken pipe")
    as [Hc _]; try reflexivity.
  - eexists; split; reflexivity.
  - vm_compute in Hc. discriminate Hc.
Qed.

(** C5, amended.  A completion that carries an error is reported, once,
    and changes nothing else: the queue object is as it was, [current]
    included, the player holds the failed source and is silent, and no
    source is started.  The room goes on serving commands: the next
    [play] that resolves starts its source at once, the deque
    untouched. *)
Theorem playback_error_is_only_reported (w : World) (c : ref) (e : string) :
  streaming w c ->
  callbacks w = [] ->
  let w' := run [Command (StreamEnds (Some e)); Command RunCallback] w in
  mq w' = mq w /\
  trace w' = Send (PlaybackError e) :: trace w /\
  callbacks w' = [] /\
  (exists vc, voice_client w' = Some vc /\ player vc = Some (c, false)) /\
  (forall (ch : nat) (search : string) (d : data),
     let next :=
       handle (Command (PlayNow (Some ch) search
                          {| connect_raises := None; extracted := inr d |}))
         w' in
     current (mq next) = Some (List.length (heap w)) /\
     queue (mq next) = queue (mq w) /\
     streaming next (List.length (heap w))).
Proof.
  unfold streaming. destruct w as [[q cur lp vol pr] v h cbs sl tr]; cbn.
  intros (vc & -> & Hp) ->.
  unfold Music.dispatch. unfold_music. cbn. rewrite Hp. cbn.
  repeat split; try (eexists; split; reflexivity).
  all: destruct (Nat.eqb (channel vc) ch); cbn;
    unfold VoiceClient.is_playing; cbn; rewrite ?Hp; cbn;
    try reflexivity; eexists; split; reflexivity.
Qed.

Lemma playback_error_is_only_reported_witness :
  let w' := run [Command (StreamEnds (Some "broken pipe"));
                 Command RunCallback] playing_A_pending_B in
  current (mq w') = Some 0%nat /\ queue (mq w') = [1%nat] /\
  trace w' = Send (PlaybackError "broken pipe") :: trace playing_A_pending_B.
Proof.
  cbv zeta.
  destruct (playback_error_is_only_reported playing_A_pending_B 0%nat
              "broken pipe") as (Hq & Ht & _).
  - eexists; split; reflexivity.
  - reflexivity.
  - rewrite Hq. split; [reflexivity | split; [reflexivity | exact Ht]].
Defined.

(** ** Expansion of a playlist or an album *)

Lemma play_search_returns ch search others a w :
  fst (Music.play_search ch search others a w) = Returned tt.
Proof.
  unfold Music.play_search, try_except.
  match goal with |- context [match ?m w with _ => _ end] =>
    destruct (m w) as [[[]|e] w'] end; reflexivity.
Qed.

Lemma play_direct_returns author search others a w :
  fst (Music.play_direct author search others a w) = Returned tt.
Proof.
  unfold Music.play_direct, Music.play_entry.
  destruct author as [ch|]; [|reflexivity].
  unfold bind, Music.update_queue, act. apply play_search_returns.
Qed.

Lemma process_spotify_url_returns url api w :
  fst (Music.process_spotify_url url api w) = Returned tt.
Proof.
  rewrite process_spotify_url_eq. unfold try_except.
  match goal with |- context [match ?m w with _ => _ end] =>
    destruct (m w) as [[[]|e] w'] end; reflexivity.
Qed.

(** The [play] of a track whose query is a search term, and its end. *)
Lemma play_track_search t during a after w :
  sub_play t = AsSearch during a after ->
  Music.play_track t w =
  (Returned tt,
   Music.interleave after
     (snd (Music.play_direct (sub_author t) (search_of t)
             (Music.interleave during) a w))).
Proof.
  intros Hp. rewrite play_track_eq. unfold sub_after. rewrite Hp.
  change (Music.play_entry (sub_author t)
            (fun ch => Music.play_search ch (search_of t)
                         (Music.interleave during) a))
    with (Music.play_direct (sub_author t) (search_of t)
            (Music.interleave during) a).
  unfold bind.
  pose proof (play_direct_returns (sub_author t) (search_of t)
                (Music.interleave during) a w) as H.
  destruct (Music.play_direct (sub_author t) (search_of t)
              (Music.interleave during) a w) as [[[]|e] w'];
    [reflexivity | discriminate H].
Qed.

Lemma for_tracks_step stopped t rest w :
  processing (mq w) = true ->
  fst (Music.play_track t w) = Returned tt ->
  Music.for_tracks stopped (t :: rest) w =
  Music.for_tracks stopped rest (snd (Music.play_track t w)).
Proof.
  intros Hp H. rewrite for_tracks_cons.
  unfold bind at 1, Music.get_queue, read. rewrite Hp. cbn [negb].
  unfold bind.
  destruct (Music.play_track t w) as [[[]|e] w']; [reflexivity|discriminate H].
Qed.

Lemma for_tracks_stopped stopped t rest w :
  processing (mq w) = false ->
  Music.for_tracks stopped (t :: rest) w = (Returned tt, emit (Send stopped) w).
Proof.
  intros Hp. rewrite for_tracks_cons.
  unfold bind, Music.get_queue, read. rewrite Hp. reflexivity.
Qed.

(** A [play] of a Spotify playlist URL whose tracks the client returns is
    the loop over these tracks, entered with the flag set, and the report
    of the exception that leaves it, if one does. *)
Lemma play_playlist_runs_loop ch url api tracks w :
  contains "track" url = false ->
  contains "playlist" url = true ->
  get_playlist_tracks api = inr tracks ->
  handle (Play (Some ch) (SpotifyUrl url api)) w =
  snd (try_except (Music.for_tracks StoppedPlaylist tracks)
         (fun e => send (SpotifyError e))
         (with_mq (set_processing true (mq w)) w)).
Proof.
  intros Ht Hp Ha. cbn [handle].
  unfold finish, Music.play, Music.play_entry, Music.update_queue, act.
  unfold bind at 1.
  pose proof (process_spotify_url_returns url api
                (with_mq (set_processing true (mq w)) w)) as H.
  rewrite process_spotify_url_eq in *. rewrite Ht, Hp, Ha in *.
  match goal with |- context [match ?x with _ => _ end] =>
    destruct x as [[[]|e] w'] end; [reflexivity | discriminate H].
Qed.

Lemma quiet_search ch t :
  quiet ch t -> sub_play t = AsSearch [] (sub_attempt t) [].
Proof. now intros (_ & H & _). Qed.

Lemma quiet_returns ch t w :
  quiet ch t -> fst (Music.play_track t w) = Returned tt.
Proof.
  intros H. now rewrite (play_track_search t _ _ _ w (quiet_search ch t H)).
Qed.

Lemma quiet_play_track ch t lo w :
  quiet ch t ->
  kept lo w ->
  (lo <= List.length (heap w))%nat ->
  let w' := snd (Music.play_track t w) in
  kept lo w' /\
  processing (mq w') = true /\
  heap w' = (heap w ++ sources_of [t])%list /\
  failures w' = (failures w + List.length (failing [t]))%nat /\
  extractions w' = (extractions w ++ [search_of t])%list.
Proof.
  intros Hq. cbv zeta.
  rewrite (play_track_search t _ _ _ w (quiet_search ch t Hq)).
  destruct Hq as (Hau & _ & Hcr). rewrite Hau.
  unfold sources_of, failing. cbn [flat_map filter].
  destruct (sub_attempt t) as [cr ex]. cbn in Hcr. subst cr.
  generalize (search_of t) as search. intros search.
  unfold kept, busy, failures, extractions.
  destruct w as [[q cur lp vol pr] v h cbs sl trc]; cbn.
  intros Hk Hlo.
  unfold Music.interleave. unfold_music. cbn.
  destruct v as [[c [[s [|]]|]]|]; cbn; try destruct (Nat.eqb c ch); cbn;
    destruct ex as [e|d]; cbn; unfold VoiceClient.is_playing; cbn;
    rewrite ?app_nil_r, ?Nat.add_0_r, ?Nat.add_1_r, ?length_app; cbn;
    repeat split; auto.
  all: intros i Hi; unfold VoiceClient.is_playing in Hk; cbn in Hk;
    destruct (Nat.eq_dec i (List.length h)) as [->|Hne];
    [ first [ left; split; reflexivity
            | right; apply in_or_app; right; left; reflexivity ]
    | destruct (Hk i ltac:(lia)) as [[Hc Hb]|Hin];
      [ try discriminate Hb; left; split; auto
      | right; try (apply in_or_app; left); auto ] ].
Qed.

Lemma kept_start w : kept (List.length (heap w)) w.
Proof. intros i Hi. lia. Qed.

Lemma quiet_for_tracks stopped ch tracks :
  Forall (quiet ch) tracks ->
  forall lo w,
  processing (mq w) = true ->
  kept lo w ->
  (lo <= List.length (heap w))%nat ->
  let w' := snd (Music.for_tracks stopped tracks w) in
  kept lo w' /\
  processing (mq w') = true /\
  heap w' = (heap w ++ sources_of tracks)%list /\
  failures w' = (failures w + List.length (failing tracks))%nat /\
  extractions w' = (extractions w ++ map search_of tracks)%list.
Proof.
  induction 1 as [|t tracks Hq _ IH]; intros lo w Hp Hk Hlo.
  - cbn. rewrite !app_nil_r, Nat.add_0_r. auto.
  - cbv zeta.
    rewrite for_tracks_step by (try assumption; now apply (quiet_returns ch)).
    destruct (quiet_play_track ch t lo w Hq Hk Hlo)
      as (Hk1 & Hp1 & Hh1 & Hf1 & He1).
    destruct (IH lo _ Hp1 Hk1) as (Hk2 & Hp2 & Hh2 & Hf2 & He2).
    { rewrite Hh1, length_app. lia. }
    split; [exact Hk2|]. split; [exact Hp2|].
    rewrite Hh2, Hf2, He2, Hh1, Hf1, He1.
    unfold sources_of, failing in *. cbn [flat_map filter map].
    rewrite <- !app_assoc. repeat split.
    destruct (extracted (sub_attempt t)); cbn; lia.
Qed.

Lemma quiet_for_tracks_app stopped ch pre rest :
  Forall (quiet ch) pre ->
  forall w, processing (mq w) = true ->
  Music.for_tracks stopped (pre ++ rest) w =
  Music.for_tracks stopped rest (snd (Music.for_tracks stopped pre w)).
Proof.
  induction 1 as [|t pre Hq _ IH]; intros w Hp; [reflexivity|].
  cbn [app].
  rewrite !for_tracks_step by (try assumption; now apply (quiet_returns ch)).
  apply IH.
  now destruct (quiet_play_track ch t _ w Hq (kept_start w) (le_n _))
    as (_ & H & _).
Qed.

Lemma play_track_then_run ch t l w :
  quiet ch t ->
  Music.play_track (then_run l t) w =
  (Returned tt, Music.interleave l (snd (Music.play_track t w))).
Proof.
  intros Hq. pose proof (quiet_search ch t Hq) as Hs.
  rewrite (play_track_search t _ _ _ w Hs).
  rewrite (play_track_search (then_run l t) [] (sub_attempt t) l w)
    by (cbn; now rewrite Hs).
  reflexivity.
Qed.

Lemma stop_clears w :
  let w' := handle (Command Stop) w in
  heap w' = heap w /\ extractions w' = extractions w /\
  queue (mq w') = [] /\ processing (mq w') = false.
Proof.
  destruct w as [[q cur lp vol pr] v h cbs sl tr]; cbn.
  unfold extractions. unfold_music. cbn.
  destruct v as [vc|]; cbn; [destruct (VoiceClient.is_playing vc)|];
    cbn; repeat split.
Qed.

(** C6.  An expansion whose first [k] tracks ([pre] and [t]) are handled
    undisturbed and meet a [stop] while the confirmation of the [k]-th is
    sent ends at the next check, with tracks [post] still to come.  When
    the [stop] runs ([mid]), the extraction of each of the [k] tracks has
    been asked for, each one that resolved is a source object, and each of
    these is the current source or in the deque.  The [stop] then clears
    flag and deque, the loop reports the stop, and nothing more happens:
    no extraction is asked for a track of [post] and no source object
    exists for one. *)
Theorem stop_ends_expansion_after_k_tracks
    (stopped : message) (ch : nat) (pre : list subitem) (t : subitem)
    (post : list subitem) (w : World) :
  Forall (quiet ch) pre ->
  quiet ch t ->
  processing (mq w) = true ->
  post <> [] ->
  let mid := snd (Music.for_tracks stopped (pre ++ [t]) w) in
  let w' :=
    snd (Music.for_tracks stopped (pre ++ then_run [Stop] t :: post) w) in
  extractions mid = (extractions w ++ map search_of (pre ++ [t]))%list /\
  heap mid = (heap w ++ sources_of (pre ++ [t]))%list /\
  (forall s, (List.length (heap w) <= s < List.length (heap mid))%nat ->
     current (mq mid) = Some s \/ In s (queue (mq mid))) /\
  w' = emit (Send stopped) (handle (Command Stop) mid) /\
  extractions w' = extractions mid /\
  heap w' = heap mid /\
  queue (mq w') = [] /\
  processing (mq w') = false.
Proof.
  intros Hpre Ht Hp Hpost. cbv zeta.
  assert (Hall : Forall (quiet ch) (pre ++ [t]))
    by (apply Forall_app; split; [assumption | now constructor]).
  destruct (quiet_for_tracks stopped ch _ Hall (List.length (heap w)) w
              Hp (kept_start w) (le_n _)) as (Hk & _ & Hh & _ & He).
  cbv zeta in *.
  set (mid := snd (Music.for_tracks stopped (pre ++ [t]) w)) in *.
  assert (Hw : snd (Music.for_tracks stopped
                      (pre ++ then_run [Stop] t :: post) w) =
               emit (Send stopped) (handle (Command Stop) mid)).
  { unfold mid.
    rewrite !(quiet_for_tracks_app stopped ch pre) by assumption.
    destruct (quiet_for_tracks stopped ch _ Hpre (List.length (heap w)) w
                Hp (kept_start w) (le_n _)) as (_ & Hp1 & _).
    cbv zeta in Hp1.
    set (w1 := snd (Music.for_tracks stopped pre w)) in *.
    rewrite (for_tracks_step stopped t [] w1 Hp1 (quiet_returns ch t w1 Ht)).
    rewrite (for_tracks_step stopped (then_run [Stop] t) post w1 Hp1)
      by now rewrite (play_track_then_run ch).
    rewrite (play_track_then_run ch) by assumption.
    cbn [snd Music.for_tracks Music.for_each ret].
    change (Music.interleave [Stop] (snd (Music.play_track t w1)))
      with (handle (Command Stop) (snd (Music.play_track t w1))).
    destruct post as [|t' post']; [congruence|].
    rewrite for_tracks_stopped; [reflexivity|].
    apply stop_clears. }
  rewrite Hw.
  destruct (stop_clears mid) as (Hsh & Hse & Hsq & Hsp).
  repeat split; auto.
  intros s Hs. destruct (Hk s Hs) as [[Hc _]|Hin]; auto.
Qed.

Lemma stop_ends_expansion_after_k_tracks_witness :
  let pre := fst (fst five_tracks) in
  let t := snd (fst five_tracks) in
  let post := snd five_tracks in
  let mid := snd (Music.for_tracks StoppedPlaylist (pre ++ [t]) init) in
  let w' :=
    snd (Music.for_tracks StoppedPlaylist
           (pre ++ then_run [Stop] t :: post) init) in
  current (mq mid) = Some 0%nat /\ queue (mq mid) = [1%nat] /\
  extractions w' = ["one artist"; "two artist"] /\
  map src_title (heap w') = ["one"; "two"] /\
  queue (mq w') = [] /\
  hd_error (trace w') = Some (Send StoppedPlaylist).
Proof.
  cbv zeta.
  destruct (stop_ends_expansion_after_k_tracks StoppedPlaylist 1%nat
              (fst (fst five_tracks)) (snd (fst five_tracks))
              (snd five_tracks) init)
    as (He & Hh & _ & Hw & He' & Hh' & _ & _).
  - repeat constructor.
  - repeat constructor.
  - reflexivity.
  - discriminate.
  - rewrite He', Hh', He, Hh, Hw.
    split; [reflexivity|]. split; [reflexivity|]. repeat split.
Defined.



(** ** The idle monitor *)

(** C7, as stated, fails: two voice-state updates seen with no human in
    the channel leave two waits outstanding. *)
Lemma two_grace_waits_outstanding :
  ~ (forall rs : list request, (sleepers (run rs init) <= 1)%nat).
Proof.
  intros claim.
  specialize (claim [play_song_request "A"; Command (VoiceStateUpdate 0);
                     Command (VoiceStateUpdate 0)]).
  vm_compute in claim. lia.
Qed.

Lemma waits_are_not_cancelled (c : cmd) (w : World) :
  (forall h, c <> WakeUp h) ->
  (sleepers w <= sleepers (Music.dispatch c w))%nat.
Proof.
  intros Hc. destruct c; cbn [Music.dispatch];
    try (exfalso; now apply (Hc humans));
    destruct w as [[? ? ? ? ?] ? ? ? ? ?];
    try destruct a as [? ?]; unfold_music; unfold VoiceClient.is_playing;
    break; cbn; lia.
Qed.

(** C7, amended.  While the bot has a voice client, every voice-state
    update seen with no human in its channel starts a wait of five seconds
    of its own, so several waits can be outstanding.  Nothing cancels a
    wait: no command or event other than the end of a wait takes one away,
    and an update seen with a human in the channel changes nothing.  A
    wait that ends with a human in the channel changes nothing and
    disconnects nothing.  A wait that ends with the channel still empty
    clears the flag and the deque and disconnects the voice client that
    exists at that moment, once; when no voice client exists it
    disconnects nothing.  So of two waits that end one after the other
    only the first disconnects. *)
Theorem idle_monitor_waits (w : World) (vc : VoiceClient) (humans : nat) :
  voice_client w = Some vc ->
  let waiting := Music.dispatch (VoiceStateUpdate 0) w in
  let twice := Music.dispatch (VoiceStateUpdate 0) waiting in
  let gone := Music.dispatch (WakeUp 0) twice in
  sleepers waiting = S (sleepers w) /\
  sleepers twice = S (S (sleepers w)) /\
  trace waiting = Sleep 5 :: trace w /\
  Music.dispatch (WakeUp (S humans)) waiting
    = emit (Sleep 5) w /\
  (voice_client gone = None /\ processing (mq gone) = false /\
   queue (mq gone) = [] /\ disconnects gone = S (disconnects w)) /\
  (voice_client (Music.dispatch (WakeUp 0) gone) = None /\
   disconnects (Music.dispatch (WakeUp 0) gone) = S (disconnects w)) /\
  (forall (c : cmd) (w0 : World),
     (forall h, c <> WakeUp h) ->
     (sleepers w0 <= sleepers (Music.dispatch c w0))%nat) /\
  Music.dispatch (VoiceStateUpdate (S humans)) waiting = waiting /\
  (forall (w0 : World) (vc0 : VoiceClient) (k : nat),
     voice_client w0 = Some vc0 ->
     sleepers w0 = S k ->
     let ended := Music.dispatch (WakeUp 0) w0 in
     voice_client ended = None /\ processing (mq ended) = false /\
     queue (mq ended) = [] /\ sleepers ended = k /\
     disconnects ended = S (disconnects w0)) /\
  (forall (w0 : World) (k : nat),
     voice_client w0 = None ->
     sleepers w0 = S k ->
     let ended := Music.dispatch (WakeUp 0) w0 in
     voice_client ended = None /\ processing (mq ended) = false /\
     queue (mq ended) = [] /\ sleepers ended = k /\
     disconnects ended = disconnects w0).
Proof.
  intros Hv. cbv zeta.
  repeat match goal with |- _ /\ _ => split end.
  1-10: destruct w as [[q cur lp vol pr] v h cbs sl tr]; cbn in Hv; subst v;
    destruct vc as [ch [[s [|]]|]];
    unfold disconnects, Music.dispatch, VoiceClient.is_playing;
    unfold_music; unfold VoiceClient.is_playing; cbn; reflexivity.
  - apply waits_are_not_cancelled.
  - destruct w as [[q cur lp vol pr] v h cbs sl tr]; cbn in Hv; subst v.
    reflexivity.
  - intros w0 vc0 k Hv0 Hs.
    destruct w0 as [[q cur lp vol pr] v h cbs sl tr]; cbn in *. subst v sl.
    destruct vc0 as [ch [[s [|]]|]];
      unfold disconnects; unfold_music; unfold VoiceClient.is_playing; cbn;
      repeat split.
  - intros w0 k Hv0 Hs.
    destruct w0 as [[q cur lp vol pr] v h cbs sl tr]; cbn in *. subst v sl.
    unfold disconnects; unfold_music; cbn; repeat split.
Qed.

Lemma idle_monitor_waits_witness :
  let w := run [play_song_request "A"] init in
  Music.dispatch (WakeUp 1) (Music.dispatch (VoiceStateUpdate 0) w)
    = emit (Sleep 5) w /\
  disconnects
    (run [Command (VoiceStateUpdate 0); Command (VoiceStateUpdate 0);
          Command (WakeUp 0); Command (WakeUp 0)] w) = 1%nat /\
  sleepers
    (run [Command (VoiceStateUpdate 0); Command (VoiceStateUpdate 1);
          Command Stop] w) = 1%nat.
Proof.
  cbv zeta.
  destruct (idle_monitor_waits (run [play_song_request "A"] init)
              {| channel := 1; player := Some (0%nat, true) |} 0%nat)
    as (_ & _ & _ & Hback & _ & (_ & Hone) & _).
  - reflexivity.
  - split; [exact Hback | split; [exact Hone | reflexivity]].
Defined.

(** A wait that is still outstanding when the bot has been called back
    disconnects it again: of two waits started in the same empty channel,
    both disconnect when a [play] comes between their ends. *)
Example second_wait_disconnects_after_a_play :
  disconnects
    (run [play_song_request "A"; Command (VoiceStateUpdate 0);
          Command (VoiceStateUpdate 0); Command (WakeUp 0);
          play_song_request "B"; Command (WakeUp 0)] init) = 2%nat.
Proof. reflexivity. Qed.

(** ** Volume *)

(** C8, as stated, fails: a valid volume is not stored in the room. *)
Lemma volume_is_not_stored :
  ~ (forall (w : World) (v : Z),
       0 <= v <= 200 ->
       (volume (mq (handle (Command (SetVolume v)) w)) == v # 100)%Q).
Proof.
  intros claim.
  specialize (claim playing_A_pending_B 50 ltac:(lia)).
  vm_compute in claim. discriminate claim.
Qed.

Lemma nth_error_set_src_volume_same s v h src :
  nth_error h s = Some src ->
  nth_error (set_src_volume s v h) s =
  Some {| src_title := src_title src; src_duration := src_duration src;
          src_volume := v |}.
Proof.
  revert s; induction h as [|x h IH]; intros [|s]; cbn; try discriminate.
  - now intros [= ->].
  - apply IH.
Qed.

Lemma nth_error_set_src_volume_other s s' v h :
  s' <> s -> nth_error (set_src_volume s v h) s' = nth_error h s'.
Proof.
  revert s s'; induction h as [|x h IH]; intros [|s] [|s'] H; cbn;
    try reflexivity; try congruence.
  apply IH. congruence.
Qed.

(** C8, amended.  A volume from 0 to 200 is written, as [v / 100], to the
    source object the voice client holds and to nothing else: the volume
    field of the room's queue keeps its value, the other sources keep
    theirs, and a source created afterwards starts at the default volume
    1.  A volume outside 0..200 is refused with a message and changes
    nothing. *)
Theorem volume_reaches_the_playing_source_only
    (w : World) (vc : VoiceClient) (s : ref) (src : YTDLSource) (v : Z) :
  voice_client w = Some vc ->
  VoiceClient.source vc = Some s ->
  nth_error (heap w) s = Some src ->
  let w' := handle (Command (SetVolume v)) w in
  mq w' = mq w /\
  voice_client w' = voice_client w /\
  (0 <= v <= 200 ->
     nth_error (heap w') s =
       Some {| src_title := src_title src; src_duration := src_duration src;
               src_volume := v # 100 |} /\
     (forall s', s' <> s -> nth_error (heap w') s' = nth_error (heap w) s') /\
     trace w' = Send (VolumeSet v) :: trace w /\
     (forall search d,
        let made := create_source search (fun w => w) (inr d) w' in
        fst made = Returned (List.length (heap w')) /\
        nth_error (heap (snd made)) (List.length (heap w')) =
          Some {| src_title := data_title d; src_duration := data_duration d;
                  src_volume := 1 |})) /\
  (~ 0 <= v <= 200 -> w' = emit (Send VolumeOutOfRange) w).
Proof.
  destruct w as [[q cur lp vol pr] vcl h cbs sl tr]; cbn.
  intros -> Hs Hsrc. unfold_music.
  destruct (Z.leb_spec 0 v); destruct (Z.leb_spec v 200); cbn;
    repeat split; intros; try lia.
  all: rewrite Hs; cbn; try reflexivity.
  - now apply nth_error_set_src_volume_same.
  - now apply nth_error_set_src_volume_other.
  - rewrite nth_error_app2, Nat.sub_diag by lia. reflexivity.
Qed.

Lemma volume_reaches_the_playing_source_only_witness :
  let w' := handle (Command (SetVolume 50)) playing_A_pending_B in
  volume (mq w') = 1%Q /\
  option_map src_volume (nth_error (heap w') 0) = Some (50 # 100)%Q /\
  option_map src_volume (nth_error (heap w') 1) = Some 1%Q /\
  handle (Command (SetVolume 250)) playing_A_pending_B =
    emit (Send VolumeOutOfRange) playing_A_pending_B.
Proof.
  cbv zeta.
  destruct (volume_reaches_the_playing_source_only playing_A_pending_B
              {| channel := 1; player := Some (0%nat, true) |} 0%nat
              {| src_title := "A"; src_duration := Some (215 # 1)%Q;
                 src_volume := 1 |} 50)
    as (Hq & _ & Hin & _); try reflexivity.
  destruct (volume_reaches_the_playing_source_only playing_A_pending_B
              {| channel := 1; player := Some (0%nat, true) |} 0%nat
              {| src_title := "A"; src_duration := Some (215 # 1)%Q;
                 src_volume := 1 |} 250)
    as (_ & _ & _ & Hout); try reflexivity.
  destruct (Hin ltac:(lia)) as (Hs & Ho & _).
  rewrite Hq, Hs, (Ho 1%nat) by discriminate.
  split; [reflexivity | split; [reflexivity | split; [reflexivity |]]].
  apply Hout. lia.
Defined.

(** * Further properties of the code *)

(** ** Python's [in] on strings *)

Lemma prefix_app (p s : string) :
  String.prefix p s = true <-> exists post, s = p ++ post.
Proof.
  revert s. induction p as [|a p IH]; intros s; cbn.
  - split; [intros _; now exists s | now destruct s].
  - destruct s as [|b s].
    + split; [discriminate | intros [post H]; discriminate H].
    + cbn. destruct (Ascii.ascii_dec a b) as [->|Hne].
      * rewrite IH. split; intros [post H]; exists post.
        -- now rewrite H.
        -- now injection H.
      * split; [discriminate|]. intros [post H]. injection H as Hab _.
        congruence.
Qed.

(** X1.  [contains needle hay] is Python's [needle in hay]: it holds
    exactly when [hay] is some text, then [needle], then some text. *)
Theorem contains_substring (needle hay : string) :
  contains needle hay = true <->
  exists pre post, hay = pre ++ needle ++ post.
Proof.
  induction hay as [|b hay IH].
  - cbn [contains]. destruct (String.prefix needle "") eqn:Hp.
    + apply prefix_app in Hp as [post H]. split; [|reflexivity].
      intros _. exists "", post. exact H.
    + split; [discriminate|]. intros (pre & post & H).
      destruct pre; [|discriminate H]. cbn in H.
      assert (String.prefix needle "" = true)
        by (apply prefix_app; now exists post).
      congruence.
  - cbn [contains]. destruct (String.prefix needle (String b hay)) eqn:Hp.
    + apply prefix_app in Hp as [post H]. split; [|reflexivity].
      intros _. exists "", post. exact H.
    + rewrite IH. split.
      * intros (pre & post & ->). now exists (String b pre), post.
      * intros (pre & post & H). destruct pre as [|c pre].
        -- cbn in H.
           assert (String.prefix needle (String b hay) = true)
             by (apply prefix_app; now exists post).
           congruence.
        -- injection H as _ ->. now exists pre, post.
Qed.

Lemma contains_substring_witness :
  contains "track" "https://open.spotify.com/playlist/soundtracks" = true.
Proof.
  apply (contains_substring "track"
           "https://open.spotify.com/playlist/soundtracks").
  exists "https://open.spotify.com/playlist/sound", "s". reflexivity.
Defined.

(** ** The Spotify client *)

Lemma playlist_items_good items : forall tracks,
  Forall (fun t => sp_artists t <> []) (present items) ->
  SpotifyClient.playlist_items items tracks =
  inr (tracks ++ map dict_of (present items))%list.
Proof.
  induction items as [|[t|] items IH]; intros tracks H; cbn.
  - now rewrite app_nil_r.
  - cbn in H. inversion H as [|? ? Ht Hrest]; subst.
    unfold SpotifyClient.entry, dict_of.
    destruct (sp_artists t) as [|a l]; [congruence|].
    rewrite IH by assumption. cbn. now rewrite <- app_assoc.
  - apply IH. exact H.
Qed.

Lemma playlist_pages_good r : forall tracks,
  request_fails r = false ->
  Forall (fun t => sp_artists t <> []) (present (all_items r)) ->
  SpotifyClient.pages SpotifyClient.playlist_items r tracks =
  inr (tracks ++ map dict_of (present (all_items r)))%list.
Proof.
  induction r as [items next IH|items|e|]; intros tracks Hf Ha; cbn in *.
  - unfold present in *. rewrite flat_map_app in *.
    apply Forall_app in Ha as [Ha1 Ha2].
    rewrite playlist_items_good by assumption.
    rewrite IH by assumption. now rewrite map_app, app_assoc.
  - now apply playlist_items_good.
  - discriminate.
  - now rewrite app_nil_r.
Qed.

(** X2.  When no request fails and every track has an artist,
    [get_playlist_tracks] returns the tracks of all pages, in the order of
    the playlist, the items without a track left out, each with its name
    and its first artist. *)
Theorem playlist_tracks_in_order (r : results (option spotify_track)) :
  request_fails r = false ->
  Forall (fun t => sp_artists t <> []) (present (all_items r)) ->
  SpotifyClient.get_playlist_tracks r =
  inr (map dict_of (present (all_items r))).
Proof.
  intros Hf Ha. unfold SpotifyClient.get_playlist_tracks.
  now rewrite playlist_pages_good.
Qed.

Lemma playlist_tracks_in_order_witness :
  SpotifyClient.get_playlist_tracks
    (Page [Some {| sp_name := "one"; sp_artists := ["x"; "y"] |}; None]
       (LastPage [Some {| sp_name := "two"; sp_artists := ["z"] |}])) =
  inr [{| td_title := "one"; td_artist := "x" |};
       {| td_title := "two"; td_artist := "z" |}].
Proof.
  apply (playlist_tracks_in_order
           (Page [Some {| sp_name := "one"; sp_artists := ["x"; "y"] |}; None]
              (LastPage [Some {| sp_name := "two"; sp_artists := ["z"] |}]))).
  - reflexivity.
  - repeat constructor; discriminate.
Defined.

Lemma album_items_bad items : forall tracks,
  Exists (fun t => sp_artists t = []) items ->
  SpotifyClient.album_items items tracks = inl "list index out of range".
Proof.
  induction items as [|t items IH]; intros tracks H; cbn.
  - inversion H.
  - unfold SpotifyClient.entry.
    destruct (sp_artists t) as [|a l] eqn:E; [reflexivity|].
    apply IH. inversion H; subst; [congruence | assumption].
Qed.

Lemma playlist_items_bad items : forall tracks,
  Exists (fun t => sp_artists t = []) (present items) ->
  SpotifyClient.playlist_items items tracks = inl "list index out of range".
Proof.
  induction items as [|[t|] items IH]; intros tracks H; cbn in *.
  - inversion H.
  - unfold SpotifyClient.entry.
    destruct (sp_artists t) as [|a l] eqn:E; [reflexivity|].
    apply IH. inversion H; subst; [congruence | assumption].
  - now apply IH.
Qed.

(** X3.  One track without artists on the first page makes
    [get_playlist_tracks] and [get_album_tracks] fail as a whole, with the
    index error of [track['artists'][0]]: the tracks before it and the
    pages after it are lost. *)
Theorem track_without_artist_fails_the_whole_list
    (items : list (option spotify_track)) (tracks : list spotify_track)
    (next : results (option spotify_track)) (more : results spotify_track) :
  Exists (fun t => sp_artists t = []) (present items) ->
  Exists (fun t => sp_artists t = []) tracks ->
  SpotifyClient.get_playlist_tracks (Page items next)
    = inl "list index out of range" /\
  SpotifyClient.get_playlist_tracks (LastPage items)
    = inl "list index out of range" /\
  SpotifyClient.get_album_tracks (Page tracks more)
    = inl "list index out of range" /\
  SpotifyClient.get_album_tracks (LastPage tracks)
    = inl "list index out of range".
Proof.
  intros Hp Ha.
  unfold SpotifyClient.get_playlist_tracks, SpotifyClient.get_album_tracks.
  cbn. rewrite playlist_items_bad, album_items_bad by assumption.
  repeat split.
Qed.

Lemma track_without_artist_fails_the_whole_list_witness :
  SpotifyClient.get_playlist_tracks
    (Page [Some {| sp_name := "one"; sp_artists := ["x"] |};
           Some {| sp_name := "local file"; sp_artists := [] |}]
       (LastPage [Some {| sp_name := "two"; sp_artists := ["z"] |}]))
  = inl "list index out of range".
Proof.
  apply (track_without_artist_fails_the_whole_list
           [Some {| sp_name := "one"; sp_artists := ["x"] |};
            Some {| sp_name := "local file"; sp_artists := [] |}]
           [{| sp_name := "local file"; sp_artists := [] |}]
           (LastPage [Some {| sp_name := "two"; sp_artists := ["z"] |}])
           Nothing).
  - right. left. reflexivity.
  - left. reflexivity.
Defined.

(** ** Spotify URLs in [play] *)

(** X4.  A URL that contains "track" is handled as a single track even
    when it also names a playlist or an album: what the client would
    answer for the playlist and the album plays no part. *)
Theorem track_branch_comes_first (url : string) (api api' : spotify_api)
    (w : World) :
  contains "track" url = true ->
  get_track_info api = get_track_info api' ->
  Music.process_spotify_url url api w = Music.process_spotify_url url api' w.
Proof.
  intros Hc Ht.
  rewrite !process_spotify_url_eq. now rewrite Hc, Ht.
Qed.

Lemma track_branch_comes_first_witness :
  let none : spotify_api :=
    {| get_track_info := inl "not a track";
       get_playlist_tracks := inr [track_of "one" (found "one") []];
       get_album_tracks := inl "not an album" |} in
  let other : spotify_api :=
    {| get_track_info := inl "not a track";
       get_playlist_tracks := inl "unused";
       get_album_tracks := inl "unused" |} in
  Music.process_spotify_url
    "https://open.spotify.com/playlist/soundtracks" none init =
  Music.process_spotify_url
    "https://open.spotify.com/playlist/soundtracks" other init.
Proof.
  cbv zeta.
  apply (track_branch_comes_first
           "https://open.spotify.com/playlist/soundtracks").
  - reflexivity.
  - reflexivity.
Defined.

(** X5.  When the call of the Spotify client raises, [play] reports
    "Error processing Spotify URL" once and nothing else happens: no
    extraction, no source, the deque and [current] as they were; the
    [processing] flag has been reset before. *)
Theorem spotify_failure_is_reported (ch : nat) (url e : string)
    (api : spotify_api) (w : World) :
  (contains "track" url = true /\ get_track_info api = inl e) \/
  (contains "track" url = false /\ contains "playlist" url = true /\
   get_playlist_tracks api = inl e) \/
  (contains "track" url = false /\ contains "playlist" url = false /\
   contains "album" url = true /\ get_album_tracks api = inl e) ->
  handle (Play (Some ch) (SpotifyUrl url api)) w =
  emit (Send (SpotifyError e)) (with_mq (set_processing true (mq w)) w).
Proof.
  intros [(Ht & Ha)|[(Ht & Hp & Ha)|(Ht & Hp & Hal & Ha)]];
    cbn [handle]; unfold finish, Music.play, Music.play_entry;
    rewrite process_spotify_url_eq;
    unfold try_except, Music.update_queue, act;
    unfold bind at 1; rewrite ?Ht, ?Hp, ?Hal, Ha; reflexivity.
Qed.

Lemma spotify_failure_is_reported_witness :
  handle (Play (Some 1%nat)
            (SpotifyUrl "https://open.spotify.com/playlist/x"
               {| get_track_info := inl "unused";
                  get_playlist_tracks := inl "http status 404";
                  get_album_tracks := inl "unused" |}))
    playing_A_pending_B =
  emit (Send (SpotifyError "http status 404"))
    (with_mq (set_processing true (mq playing_A_pending_B))
       playing_A_pending_B).
Proof.
  apply (spotify_failure_is_reported 1%nat
           "https://open.spotify.com/playlist/x" "http status 404"
           {| get_track_info := inl "unused";
              get_playlist_tracks := inl "http status 404";
              get_album_tracks := inl "unused" |} playing_A_pending_B).
  right. left. repeat split.
Defined.

(** ** Enqueueing *)

(** X6.  A [play] that resolves while the voice client is silent
    (not connected, or connected and not streaming) starts the new source
    at once: it joins the author's channel, the new object becomes
    [current] and streams, at volume 1, the deque is left alone and
    "Now Playing" is sent. *)
Theorem play_on_silent_room_starts (w : World) (ch : nat) (search : string)
    (d : data) :
  busy w = false ->
  let n := List.length (heap w) in
  let w' := handle (Command (PlayNow (Some ch) search (resolves d))) w in
  current (mq w') = Some n /\
  queue (mq w') = queue (mq w) /\
  processing (mq w') = true /\
  heap w' = (heap w ++ [source_of d])%list /\
  voice_client w' = Some {| channel := ch; player := Some (n, true) |} /\
  hd_error (trace w') =
    Some (Send (NowPlaying (data_title d) (format_duration (data_duration d)))).
Proof.
  unfold busy. destruct w as [[q cur lp vol pr] v h cbs sl tr]; cbn.
  intros Hb. unfold Music.dispatch. unfold_music. unfold describe. cbn.
  destruct v as [[c [[s [|]]|]]|]; cbn in *; try discriminate Hb;
    try destruct (Nat.eqb_spec c ch) as [->|Hne]; cbn;
    unfold VoiceClient.is_playing; cbn;
    rewrite nth_error_app2, Nat.sub_diag by lia; cbn; repeat split.
Qed.

Lemma play_on_silent_room_starts_witness :
  let w' := handle (Command (PlayNow (Some 1%nat) "A"
                               (resolves {| data_title := "A";
                                            data_duration := None |})))
              init in
  current (mq w') = Some 0%nat /\
  hd_error (trace w') = Some (Send (NowPlaying "A" "Unknown")).
Proof.
  cbv zeta.
  destruct (play_on_silent_room_starts init 1%nat "A"
              {| data_title := "A"; data_duration := None |})
    as (Hc & _ & _ & _ & _ & Ht).
  - reflexivity.
  - split; [exact Hc | exact Ht].
Defined.

(** X7.  A [play] that resolves while a source is streaming appends the
    new object at the end of the deque and touches neither [current] nor
    the stream; "Added to Queue" is sent. *)
Theorem play_on_busy_room_appends (w : World) (ch : nat) (search : string)
    (d : data) (c : ref) :
  streaming w c ->
  let n := List.length (heap w) in
  let w' := handle (Command (PlayNow (Some ch) search (resolves d))) w in
  queue (mq w') = (queue (mq w) ++ [n])%list /\
  current (mq w') = current (mq w) /\
  streaming w' c /\
  heap w' = (heap w ++ [source_of d])%list /\
  starts w' = starts w /\
  hd_error (trace w') =
    Some (Send (AddedToQueue (data_title d)
                  (format_duration (data_duration d)))).
Proof.
  unfold streaming, starts.
  destruct w as [[q cur lp vol pr] v h cbs sl tr]; cbn.
  intros (vc & -> & Hp). destruct vc as [c0 p]; cbn in Hp; subst p.
  unfold Music.dispatch. unfold_music. unfold describe. cbn.
  destruct (Nat.eqb_spec c0 ch) as [->|Hne]; cbn;
    unfold VoiceClient.is_playing; cbn;
    rewrite nth_error_app2, Nat.sub_diag by lia; cbn; repeat split;
    eexists; split; reflexivity.
Qed.

Lemma play_on_busy_room_appends_witness :
  let w' := handle (Command (PlayNow (Some 1%nat) "C"
                               (resolves {| data_title := "C";
                                            data_duration := None |})))
              playing_A_pending_B in
  queue (mq w') = [1%nat; 2%nat] /\ current (mq w') = Some 0%nat.
Proof.
  cbv zeta.
  destruct (play_on_busy_room_appends playing_A_pending_B 1%nat "C"
              {| data_title := "C"; data_duration := None |} 0%nat)
    as (Hq & Hc & _).
  - eexists; split; reflexivity.
  - split; [exact Hq | exact Hc].
Defined.

(** X8.  A [play] for which [create_source] fails changes neither the
    deque nor [current] nor the sources nor the stream; the bot has joined
    the author's channel all the same and the extraction was asked for.
    The report of [play] carries the text of the failure: for a failure of
    [extract_info] or its timeout this is the prefix of [create_source]
    followed by the error, so the prefix appears twice in the message; for
    a failure after that [try] (a search without result, an entry without
    URL, the audio source) it is the bare error. *)
Theorem play_failure_leaves_queue (w : World) (ch : nat) (search : string)
    (f : failure) :
  let w' := handle (Command (PlayNow (Some ch) search
                               {| connect_raises := None;
                                  extracted := inl f |})) w in
  mq w' = set_processing true (mq w) /\
  heap w' = heap w /\
  starts w' = starts w /\
  busy w' = busy w /\
  (exists p, voice_client w' = Some {| channel := ch; player := p |}) /\
  hd_error (trace w') =
    Some (Send (ErrorOccurred
                  match f with
                  | ExtractInfo e => "An error occurred: " ++ e
                  | NoData => "argument of type 'NoneType' is not iterable"
                  | NoEntries => "list index out of range"
                  | NoUrl => "'url'"
                  | Audio e => e
                  end)) /\
  extractions w' = (extractions w ++ [search])%list.
Proof.
  unfold busy, starts, extractions.
  destruct w as [[q cur lp vol pr] v h cbs sl tr]; cbn.
  unfold Music.dispatch. unfold_music. cbn.
  destruct v as [[c p]|]; cbn; [destruct (Nat.eqb_spec c ch) as [->|Hne]|];
    cbn; destruct f; cbn; repeat split; eexists; reflexivity.
Qed.

Lemma play_failure_leaves_queue_witness :
  let failed f :=
    handle (Command (PlayNow (Some 1%nat) "song"
                       {| connect_raises := None; extracted := inl f |}))
      playing_A_pending_B in
  hd_error (trace (failed (ExtractInfo "timed out"))) =
    Some (Send (ErrorOccurred "An error occurred: timed out")) /\
  hd_error (trace (failed NoEntries)) =
    Some (Send (ErrorOccurred "list index out of range")) /\
  queue (mq (failed NoEntries)) = [1%nat].
Proof.
  cbv zeta.
  destruct (play_failure_leaves_queue playing_A_pending_B 1%nat "song"
              (ExtractInfo "timed out")) as (_ & _ & _ & _ & _ & Ht & _).
  destruct (play_failure_leaves_queue playing_A_pending_B 1%nat "song"
              NoEntries) as (Hq & _ & _ & _ & _ & Hn & _).
  split; [exact Ht|]. split; [exact Hn|]. now rewrite Hq.
Defined.

(** ** Completions *)

Lemma completion_advances (w : World) (c x : ref) (rest : list ref) :
  loop (mq w) = false ->
  streaming w c ->
  callbacks w = [] ->
  queue (mq w) = x :: rest ->
  let w' := run completion w in
  loop (mq w') = false /\ streaming w' x /\ callbacks w' = [] /\
  queue (mq w') = rest /\ current (mq w') = Some x /\
  starts w' = (starts w ++ [x])%list.
Proof.
  unfold streaming, starts.
  destruct w as [[q cur lp vol pr] v h cbs sl tr]; cbn.
  intros -> (vc & -> & Hp) -> ->. destruct vc as [c0 p]; cbn in Hp; subst p.
  unfold Music.dispatch. unfold_music. cbn.
  destruct cur; cbn; repeat split; eexists; split; reflexivity.
Qed.

Lemma run_app rs rs' w : run (rs ++ rs') w = run rs' (run rs w).
Proof. unfold run. apply fold_left_app. Qed.

(** X9.  With loop off, the pending sources are played first in, first
    out: while [c] streams with [l] pending, as many normal completions as
    [l] is long start exactly the sources of [l], in order, and leave the
    deque empty with the last of them current and streaming. *)
Theorem pending_plays_in_order (l : list ref) :
  forall (w : World) (c : ref),
  loop (mq w) = false ->
  streaming w c ->
  callbacks w = [] ->
  queue (mq w) = l ->
  let w' := run (completions (List.length l)) w in
  starts w' = (starts w ++ l)%list /\
  queue (mq w') = [] /\
  streaming w' (last l c) /\
  (l <> [] -> current (mq w') = Some (last l c)).
Proof.
  induction l as [|x rest IH]; intros w c Hl Hs Hc Hq; cbn [List.length completions].
  - cbn. rewrite app_nil_r. repeat split; auto. congruence.
  - cbv zeta. rewrite run_app.
    destruct (completion_advances w c x rest Hl Hs Hc Hq)
      as (Hl1 & Hs1 & Hc1 & Hq1 & Hcur1 & Hst1).
    destruct (IH _ x Hl1 Hs1 Hc1 Hq1) as (Hst2 & Hq2 & Hs2 & Hcur2).
    rewrite Hst2, Hst1, <- app_assoc. cbn [app].
    assert (Hlast : last (x :: rest) c = last rest x)
      by (clear; revert x; induction rest as [|y rest IH]; intros x;
          [reflexivity | cbn in *; destruct rest; [reflexivity|apply IH]]).
    rewrite Hlast. repeat split; auto.
    intros _. destruct rest as [|y rest']; [exact Hcur1|].
    apply Hcur2. discriminate.
Qed.

Lemma pending_plays_in_order_witness :
  let w := handle (play_song_request "C") playing_A_pending_B in
  let w' := run (completions 2) w in
  starts w' = [0%nat; 1%nat; 2%nat] /\ queue (mq w') = [] /\
  current (mq w') = Some 2%nat.
Proof.
  cbv zeta.
  destruct (pending_plays_in_order [1%nat; 2%nat]
              (handle (play_song_request "C") playing_A_pending_B) 0%nat)
    as (Hs & Hq & _ & Hc).
  - reflexivity.
  - eexists; split; reflexivity.
  - reflexivity.
  - reflexivity.
  - split; [exact Hs | split; [exact Hq | apply Hc; discriminate]].
Defined.

(** X10.  When the last source ends normally with nothing pending and
    loop off, nothing is started and nothing is sent, and [current] keeps
    the finished source: [show_queue] goes on listing it under "Now
    Playing". *)
Theorem finished_track_stays_current (w : World) (c : ref) :
  loop (mq w) = false ->
  queue (mq w) = [] ->
  current (mq w) = Some c ->
  streaming w c ->
  callbacks w = [] ->
  let w' := run completion w in
  mq w' = mq w /\ busy w' = false /\ trace w' = trace w /\
  hd_error (trace (handle (Command ShowQueue) w')) =
    Some (Send (QueueShown (Some (describe w c)) [])).
Proof.
  unfold streaming, busy.
  destruct w as [[q cur lp vol pr] v h cbs sl tr]; cbn.
  intros -> -> -> (vc & -> & Hp) ->.
  destruct vc as [c0 p]; cbn in Hp; subst p.
  unfold Music.dispatch. unfold_music. cbn. repeat split.
Qed.

Lemma finished_track_stays_current_witness :
  let w' := run completion (run [play_song_request "A"] init) in
  current (mq w') = Some 0%nat /\ busy w' = false.
Proof.
  cbv zeta.
  destruct (finished_track_stays_current (run [play_song_request "A"] init)
              0%nat) as (Hq & Hb & _); try reflexivity.
  - eexists; split; reflexivity.
  - rewrite Hq. split; [reflexivity | exact Hb].
Defined.

(** ** Skip *)

(** X11.  With loop off and a source pending, [skip] stops the stream,
    drops the skipped source and starts the first pending one, which
    becomes [current]; the completion of the stopped stream is still to
    come. *)
Theorem skip_starts_next (w : World) (vc : VoiceClient) (x : ref)
    (rest : list ref) :
  loop (mq w) = false ->
  queue (mq w) = x :: rest ->
  voice_client w = Some vc ->
  VoiceClient.is_playing vc = true ->
  let w' := handle (Command Skip) w in
  current (mq w') = Some x /\ queue (mq w') = rest /\ streaming w' x /\
  callbacks w' = (callbacks w ++ [None])%list /\
  starts w' = (starts w ++ [x])%list.
Proof.
  unfold streaming, starts.
  destruct w as [[q cur lp vol pr] v h cbs sl tr]; cbn.
  intros -> -> -> Hp. unfold Music.dispatch. unfold_music. cbn.
  rewrite Hp. cbn. destruct cur; cbn; rewrite ?Hp; cbn;
    repeat split; eexists; split; reflexivity.
Qed.

Lemma skip_starts_next_witness :
  let w' := handle (Command Skip) playing_A_pending_B in
  current (mq w') = Some 1%nat /\ queue (mq w') = [] /\
  streaming w' 1%nat.
Proof.
  cbv zeta.
  destruct (skip_starts_next playing_A_pending_B
              {| channel := 1; player := Some (0%nat, true) |} 1%nat [])
    as (Hc & Hq & Hs & _); try reflexivity.
  split; [exact Hc | split; [exact Hq | exact Hs]].
Defined.

(** X12.  With loop off and two sources pending, the completion that the
    [stop] inside [skip] forces advances the queue a second time: the
    second pending source is taken from the deque and made [current], the
    voice client refuses it because the first one is streaming, and so it
    is never played. *)
Theorem skip_loses_the_track_after_next (w : World) (vc : VoiceClient)
    (x y : ref) (rest : list ref) :
  loop (mq w) = false ->
  queue (mq w) = x :: y :: rest ->
  voice_client w = Some vc ->
  VoiceClient.is_playing vc = true ->
  callbacks w = [] ->
  let w' := run [Command Skip; Command RunCallback] w in
  current (mq w') = Some y /\ queue (mq w') = rest /\ streaming w' x /\
  starts w' = (starts w ++ [x])%list /\
  hd_error (trace w') = Some (Unhandled "Already playing audio.").
Proof.
  unfold streaming, starts.
  destruct w as [[q cur lp vol pr] v h cbs sl tr]; cbn.
  intros -> -> -> Hp ->. unfold Music.dispatch. unfold_music. cbn.
  rewrite Hp. cbn. destruct cur; cbn; rewrite ?Hp; cbn;
    repeat split; eexists; split; reflexivity.
Qed.

Lemma skip_loses_the_track_after_next_witness :
  let w := handle (play_song_request "C") playing_A_pending_B in
  let w' := run [Command Skip; Command RunCallback] w in
  current (mq w') = Some 2%nat /\ queue (mq w') = [] /\
  starts w' = [0%nat; 1%nat].
Proof.
  cbv zeta.
  destruct (skip_loses_the_track_after_next
              (handle (play_song_request "C") playing_A_pending_B)
              {| channel := 1; player := Some (0%nat, true) |}
              1%nat 2%nat [])
    as (Hc & Hq & _ & Hs & _); try reflexivity.
  split; [exact Hc | split; [exact Hq | exact Hs]].
Defined.

(** X13.  With nothing pending, [skip] on a playing room stops the stream
    and sets [current] to none, loop on or off, and the completion it
    forces starts nothing; when nothing is playing, [skip] only says
    so. *)
Theorem skip_with_nothing_pending (w : World) (vc : VoiceClient) :
  queue (mq w) = [] ->
  voice_client w = Some vc ->
  callbacks w = [] ->
  let w' := run [Command Skip; Command RunCallback] w in
  if VoiceClient.is_playing vc
  then current (mq w') = None /\ queue (mq w') = [] /\ busy w' = false /\
       starts w' = starts w /\
       trace w' = Send NoMoreSongs :: StopPlayer :: trace w
  else w' = emit (Send NoSongPlaying) w.
Proof.
  unfold busy, starts.
  destruct w as [[q cur lp vol pr] v h cbs sl tr]; cbn.
  intros -> -> ->. unfold Music.dispatch. unfold_music. cbn.
  destruct (VoiceClient.is_playing vc) eqn:Hp; cbn.
  - rewrite ?Hp. cbn. destruct lp; cbn; repeat split.
  - reflexivity.
Qed.

Lemma skip_with_nothing_pending_witness :
  let w := handle (Command ToggleLoop) (run [play_song_request "A"] init) in
  let w' := run [Command Skip; Command RunCallback] w in
  current (mq w') = None /\ busy w' = false.
Proof.
  cbv zeta.
  pose proof (skip_with_nothing_pending
                (handle (Command ToggleLoop)
                   (run [play_song_request "A"] init))
                {| channel := 1; player := Some (0%nat, true) |}
                eq_refl eq_refl eq_refl) as H.
  cbn [VoiceClient.is_playing player] in H.
  destruct H as (Hc & _ & Hb & _).
  split; [exact Hc | exact Hb].
Defined.

(** ** Clear, loop, disconnect *)

(** X14.  [clear] empties the deque and leaves [current], the flags, the
    sources and the stream alone; with loop off, the source that streams
    plays on and its normal end then starts nothing. *)
Theorem clear_spares_the_current_track (w : World) (c : ref) :
  loop (mq w) = false ->
  streaming w c ->
  callbacks w = [] ->
  let w' := handle (Command Clear) w in
  queue (mq w') = [] /\ current (mq w') = current (mq w) /\
  processing (mq w') = processing (mq w) /\
  streaming w' c /\ heap w' = heap w /\
  trace w' = Send QueueCleared :: trace w /\
  busy (run completion w') = false /\
  starts (run completion w') = starts w.
Proof.
  unfold streaming, busy, starts.
  destruct w as [[q cur lp vol pr] v h cbs sl tr]; cbn.
  intros -> (vc & -> & Hp) ->. destruct vc as [c0 p]; cbn in Hp; subst p.
  unfold Music.dispatch. unfold_music. cbn.
  destruct cur; cbn; repeat split; eexists; split; reflexivity.
Qed.

Lemma clear_spares_the_current_track_witness :
  let w' := handle (Command Clear) playing_A_pending_B in
  queue (mq w') = [] /\ streaming w' 0%nat /\
  starts (run completion w') = [0%nat].
Proof.
  cbv zeta.
  destruct (clear_spares_the_current_track playing_A_pending_B 0%nat)
    as (Hq & _ & _ & Hs & _ & _ & _ & Hst); try reflexivity.
  - eexists; split; reflexivity.
  - split; [exact Hq | split; [exact Hs | exact Hst]].
Defined.

(** X15.  [toggle_loop] flips the flag and reports the new value; two
    toggles give the queue object back as it was. *)
Theorem toggle_loop_twice (w : World) :
  let once := handle (Command ToggleLoop) w in
  let twice := handle (Command ToggleLoop) once in
  loop (mq once) = negb (loop (mq w)) /\
  trace once = Send (LoopMode (negb (loop (mq w)))) :: trace w /\
  mq twice = mq w /\
  trace twice = Send (LoopMode (loop (mq w))) :: trace once.
Proof.
  destruct w as [[q cur lp vol pr] v h cbs sl tr]; cbn.
  unfold_music. cbn. destruct lp; repeat split.
Qed.

(** X16.  [disconnect] is idempotent: a second [disconnect] changes
    nothing and sends nothing. *)
Theorem disconnect_twice (w : World) :
  handle (Command Disconnect) (handle (Command Disconnect) w) =
  handle (Command Disconnect) w.
Proof.
  destruct w as [[q cur lp vol pr] v h cbs sl tr]; cbn.
  destruct v as [[c0 [[s [|]]|]]|]; unfold Music.dispatch; unfold_music;
    unfold VoiceClient.is_playing; cbn; reflexivity.
Qed.

(** X17.  After [disconnect] nothing plays again by itself: the
    completion it forces starts no source, loop on or off, since there is
    no voice client to play on; the deque stays empty and the flag
    cleared. *)
Theorem disconnect_ends_playback (w : World) (vc : VoiceClient) :
  voice_client w = Some vc ->
  callbacks w = [] ->
  let w' := run [Command Disconnect; Command RunCallback] w in
  voice_client w' = None /\ queue (mq w') = [] /\
  processing (mq w') = false /\ current (mq w') = current (mq w) /\
  starts w' = starts w /\ disconnects w' = S (disconnects w).
Proof.
  unfold starts, disconnects.
  destruct w as [[q cur lp vol pr] v h cbs sl tr]; cbn.
  intros -> ->. unfold Music.dispatch. unfold_music.
  destruct vc as [c0 [[s [|]]|]]; unfold VoiceClient.is_playing; cbn;
    try (repeat split; fail).
  destruct cur, lp; cbn; repeat split.
Qed.

Lemma disconnect_ends_playback_witness :
  let w := handle (Command ToggleLoop) playing_A_pending_B in
  let w' := run [Command Disconnect; Command RunCallback] w in
  voice_client w' = None /\ starts w' = [0%nat].
Proof.
  cbv zeta.
  destruct (disconnect_ends_playback
              (handle (Command ToggleLoop) playing_A_pending_B)
              {| channel := 1; player := Some (0%nat, true) |})
    as (Hv & _ & _ & _ & Hs & _); try reflexivity.
  split; [exact Hv | exact Hs].
Defined.

(** ** Volume and loop *)

(** X18.  The volume lives in the source object: with loop on, a volume
    set on the streaming source is still in force when the source has
    ended and is played again. *)
Theorem volume_survives_the_replay (w : World) (c : ref) (src : YTDLSource)
    (v : Z) :
  0 <= v <= 200 ->
  loop (mq w) = true ->
  current (mq w) = Some c ->
  streaming w c ->
  callbacks w = [] ->
  nth_error (heap w) c = Some src ->
  let w' := run (Command (SetVolume v) :: completion) w in
  streaming w' c /\
  nth_error (heap w') c =
    Some {| src_title := src_title src; src_duration := src_duration src;
            src_volume := v # 100 |}.
Proof.
  unfold streaming.
  destruct w as [[q cur lp vol pr] vcl h cbs sl tr]; cbn.
  intros Hv -> -> (vc & -> & Hp) -> Hsrc.
  destruct vc as [c0 p]; cbn in Hp; subst p.
  unfold Music.dispatch. unfold_music. cbn.
  destruct (Z.leb_spec 0 v); [|lia]. destruct (Z.leb_spec v 200); [|lia].
  cbn. split; [eexists; split; reflexivity|].
  now apply nth_error_set_src_volume_same.
Qed.

Lemma volume_survives_the_replay_witness :
  let w := handle (Command ToggleLoop) playing_A_pending_B in
  let w' := run (Command (SetVolume 50) :: completion) w in
  streaming w' 0%nat /\
  option_map src_volume (nth_error (heap w') 0) = Some (50 # 100)%Q.
Proof.
  cbv zeta.
  destruct (volume_survives_the_replay
              (handle (Command ToggleLoop) playing_A_pending_B) 0%nat
              {| src_title := "A"; src_duration := Some (215 # 1)%Q;
                 src_volume := 1 |} 50)
    as (Hs & Hv); try reflexivity; try lia.
  - eexists; split; reflexivity.
  - split; [exact Hs | now rewrite Hv].
Defined.

(** ** A stop while a track of an expansion is resolved *)

(** X19.  Cancellation is cooperative: a [stop] that runs while the
    extraction of a track is awaited does not keep that track from being
    played.  The extraction completes, the voice client is silent after
    the stop, so the new source is started; the flag stays cleared, and
    the loop ends at its next check. *)
Theorem stop_during_resolution_still_plays (w : World) (vc : VoiceClient)
    (t : subitem) (d : data) (rest : list subitem) (stopped : message) :
  voice_client w = Some vc ->
  sub_author t = Some (channel vc) ->
  sub_during t = [Stop] ->
  sub_after t = [] ->
  sub_attempt t = resolves d ->
  processing (mq w) = true ->
  rest <> [] ->
  let n := List.length (heap w) in
  let w' := snd (Music.for_tracks stopped (t :: rest) w) in
  current (mq w') = Some n /\ streaming w' n /\ queue (mq w') = [] /\
  processing (mq w') = false /\
  heap w' = (heap w ++ [source_of d])%list /\
  hd_error (trace w') = Some (Send stopped).
Proof.
  intros Hv Ha Hd Haf Hat Hp Hrest. cbv zeta.
  assert (Hs : sub_play t = AsSearch [Stop] (resolves d) []).
  { unfold sub_during, sub_after, sub_attempt in *.
    destruct (sub_play t) as [during a after|e|api]; try discriminate Hd.
    now subst. }
  rewrite for_tracks_step
    by (try assumption; now rewrite (play_track_search t _ _ _ w Hs)).
  destruct rest as [|t' rest]; [congruence|]. clear Hrest.
  rewrite (play_track_search t _ _ _ w Hs), Ha.
  generalize (search_of t) as search. intros search.
  rewrite for_tracks_cons.
  unfold streaming.
  destruct w as [[q cur lp vol pr] v h cbs sl tr]; cbn in *. subst v.
  destruct vc as [c0 p]; cbn.
  unfold Music.interleave, Music.dispatch. cbn [fold_left].
  unfold_music. unfold Music.interleave, Music.dispatch. cbn.
  rewrite Nat.eqb_refl. cbn.
  destruct p as [[s [|]]|]; unfold VoiceClient.is_playing; cbn;
    repeat split; eexists; split; reflexivity.
Qed.

Lemma stop_during_resolution_still_plays_witness :
  let t := {| sub_track := {| td_title := "two"; td_artist := "artist" |};
              sub_author := Some 1%nat;
              sub_play :=
                AsSearch [Stop]
                  (resolves {| data_title := "two"; data_duration := None |})
                  [] |} in
  let w' := snd (Music.for_tracks StoppedAlbum
                   [t; track_of "three" (found "three") []]
                   playing_A_pending_B) in
  current (mq w') = Some 2%nat /\ streaming w' 2%nat /\
  extractions w' = ["A"; "B"; "two artist"].
Proof.
  cbv zeta.
  destruct (stop_during_resolution_still_plays playing_A_pending_B
              {| channel := 1; player := Some (0%nat, true) |}
              {| sub_track := {| td_title := "two"; td_artist := "artist" |};
                 sub_author := Some 1%nat;
                 sub_play :=
                   AsSearch [Stop]
                     (resolves {| data_title := "two";
                                  data_duration := None |})
                     [] |}
              {| data_title := "two"; data_duration := None |}
              [track_of "three" (found "three") []] StoppedAlbum)
    as (Hc & Hs & _); try reflexivity.
  - discriminate.
  - split; [exact Hc | split; [exact Hs | reflexivity]].
Defined.

(** ** Source objects are never lost *)

Lemma heap_grows_refl h : heap_grows h h.
Proof. intros s [t d v] H. exists v. exact H. Qed.

Lemma heap_grows_trans h1 h2 h3 :
  heap_grows h1 h2 -> heap_grows h2 h3 -> heap_grows h1 h3.
Proof.
  intros H12 H23 s src H. destruct (H12 s src H) as [v Hv].
  destruct (H23 s _ Hv) as [v' Hv']. exists v'. exact Hv'.
Qed.

Lemma heap_grows_app h l : heap_grows h (h ++ l).
Proof.
  intros s [t d v] H. exists v. rewrite nth_error_app1; [exact H|].
  apply nth_error_Some. congruence.
Qed.

Lemma heap_grows_set_src_volume s v h : heap_grows h (set_src_volume s v h).
Proof.
  intros s' src H. destruct (Nat.eq_dec s' s) as [->|Hne].
  - exists v. now apply nth_error_set_src_volume_same.
  - destruct src as [t d v0]. exists v0.
    now rewrite nth_error_set_src_volume_other.
Qed.

Lemma grows_refl w : grows w w.
Proof. apply heap_grows_refl. Qed.

Lemma grows_trans w1 w2 w3 : grows w1 w2 -> grows w2 w3 -> grows w1 w3.
Proof. apply heap_grows_trans. Qed.

Lemma ks_ret {A} (a : A) : keeps_sources (ret a).
Proof. intros w. apply heap_grows_refl. Qed.

Lemma ks_raise {A} e : keeps_sources (@raise A e).
Proof. intros w. apply heap_grows_refl. Qed.

Lemma ks_read {A} (f : World -> A) : keeps_sources (read f).
Proof. intros w. apply heap_grows_refl. Qed.

Lemma ks_act f : (forall w, grows w (f w)) -> keeps_sources (act f).
Proof. intros H w. apply H. Qed.

Lemma ks_send m : keeps_sources (send m).
Proof. intros w. apply heap_grows_refl. Qed.

Lemma ks_update_queue f : keeps_sources (Music.update_queue f).
Proof. intros w. apply heap_grows_refl. Qed.

Lemma ks_bind {A B} (m : M A) (k : A -> M B) :
  keeps_sources m -> (forall a, keeps_sources (k a)) ->
  keeps_sources (bind m k).
Proof.
  intros Hm Hk w. unfold bind. specialize (Hm w).
  destruct (m w) as [[a|e] w1]; cbn in *; [|exact Hm].
  eapply grows_trans; [exact Hm | apply Hk].
Qed.

Lemma ks_try_except {A} (m : M A) (h : string -> M A) :
  keeps_sources m -> (forall e, keeps_sources (h e)) ->
  keeps_sources (try_except m h).
Proof.
  intros Hm Hh w. unfold try_except. specialize (Hm w).
  destruct (m w) as [[a|e] w1]; cbn in *; [exact Hm|].
  eapply grows_trans; [exact Hm | apply Hh].
Qed.

Lemma grows_finish (m : M unit) w : keeps_sources m -> grows w (finish m w).
Proof.
  intros Hm. specialize (Hm w). unfold finish.
  destruct (m w) as [[a|e] w1]; exact Hm.
Qed.

Lemma ks_voice_play s : keeps_sources (VoiceClient.play s).
Proof.
  intros w. unfold VoiceClient.play. destruct (voice_client w) as [vc|];
    [destruct (VoiceClient.is_playing vc)|]; apply heap_grows_refl.
Qed.

Lemma grows_voice_stop vc w : grows w (VoiceClient.stop vc w).
Proof.
  unfold VoiceClient.stop. destruct (VoiceClient.is_playing vc);
    apply heap_grows_refl.
Qed.

Lemma grows_voice_disconnect vc w : grows w (VoiceClient.disconnect vc w).
Proof.
  unfold VoiceClient.disconnect, VoiceClient.stop.
  destruct (VoiceClient.is_playing vc); apply heap_grows_refl.
Qed.

Lemma ks_join ch fails : keeps_sources (Music.join ch fails).
Proof.
  intros w. unfold Music.join.
  destruct (voice_client w) as [vc|]; [destruct (Nat.eqb (channel vc) ch)|];
    destruct fails; apply heap_grows_refl.
Qed.

Ltac ks :=
  repeat (intros;
    match goal with
    | |- keeps_sources (bind _ _) => apply ks_bind
    | |- keeps_sources (try_except _ _) => apply ks_try_except
    | |- keeps_sources (ret _) => apply ks_ret
    | |- keeps_sources (raise _) => apply ks_raise
    | |- keeps_sources (read _) => apply ks_read
    | |- keeps_sources (send _) => apply ks_send
    | |- keeps_sources (Music.update_queue _) => apply ks_update_queue
    | |- keeps_sources Music.get_queue => apply ks_read
    | |- keeps_sources (VoiceClient.play _) => apply ks_voice_play
    | |- keeps_sources (Music.join _ _) => apply ks_join
    | |- keeps_sources (act (VoiceClient.stop _)) =>
        apply ks_act, grows_voice_stop
    | |- keeps_sources (act (VoiceClient.disconnect _)) =>
        apply ks_act, grows_voice_disconnect
    | |- keeps_sources (match ?x with _ => _ end) => destruct x
    end).

Lemma ks_play_song s : keeps_sources (Music.play_song s).
Proof. unfold Music.play_song. ks. Qed.

Lemma ks_play_next : keeps_sources Music.play_next.
Proof.
  unfold Music.play_next, Music.reinsert_current, Music.start_next. ks.
  intros. apply ks_play_song.
Qed.

Lemma ks_create_source search others a :
  (forall w, grows w (others w)) ->
  keeps_sources (create_source search others a).
Proof.
  intros Ho. unfold create_source. ks.
  - apply ks_act. intros w. apply heap_grows_refl.
  - apply ks_act. exact Ho.
  - intros w. apply heap_grows_app.
Qed.

Lemma ks_play_direct author search others a :
  (forall w, grows w (others w)) ->
  keeps_sources (Music.play_direct author search others a).
Proof.
  intros Ho. unfold Music.play_direct, Music.play_entry, Music.play_search.
  ks; intros; try apply ks_play_song. now apply ks_create_source.
Qed.

Lemma grows_dispatch c w : grows w (Music.dispatch c w).
Proof.
  destruct c; cbn [Music.dispatch].
  - apply grows_finish, ks_play_direct. intros; apply heap_grows_refl.
  - apply grows_finish. unfold Music.show_queue. ks.
  - apply grows_finish. unfold Music.toggle_loop. ks.
  - apply grows_finish. unfold Music.volume. ks.
    apply ks_act. intros w'. apply heap_grows_set_src_volume.
  - apply grows_finish. unfold Music.clear. ks.
  - apply grows_finish. unfold Music.stop. ks.
  - apply grows_finish. unfold Music.disconnect. ks.
  - apply grows_finish. unfold Music.skip. ks. intros. apply ks_play_next.
  - unfold VoiceClient.stream_ends.
    destruct (voice_client w) as [[ch [[s [|]]|]]|]; apply heap_grows_refl.
  - destruct (callbacks w); [apply heap_grows_refl|].
    eapply grows_trans; [|apply grows_finish].
    + apply heap_grows_refl.
    + unfold Music.after. ks; intros; apply ks_play_next.
  - unfold MusicBot.on_voice_state_update.
    destruct (voice_client w); [destruct (Nat.eqb humans 0)|];
      apply heap_grows_refl.
  - destruct (sleepers w); [apply heap_grows_refl|].
    eapply grows_trans; [|apply grows_finish].
    + apply heap_grows_refl.
    + unfold MusicBot.on_voice_state_update_resumed. ks.
      apply ks_act. intros w'. apply heap_grows_refl.
Qed.

Lemma grows_interleave l : forall w, grows w (Music.interleave l w).
Proof.
  unfold Music.interleave. induction l as [|c l IH]; cbn; intros w.
  - apply heap_grows_refl.
  - eapply grows_trans; [apply grows_dispatch | apply IH].
Qed.

Lemma ks_play_search ch search others a :
  (forall w, grows w (others w)) ->
  keeps_sources (Music.play_search ch search others a).
Proof.
  intros Ho. unfold Music.play_search.
  ks; intros; try apply ks_play_song. now apply ks_create_source.
Qed.

Lemma ks_entry author (body : nat -> M unit) :
  (forall ch, keeps_sources (body ch)) ->
  keeps_sources (Music.play_entry author body).
Proof. intros Hb. unfold Music.play_entry. ks. intros. apply Hb. Qed.

Lemma ks_for_tracks stopped tracks :
  Forall (fun t => keeps_sources (Music.play_track t)) tracks ->
  keeps_sources (Music.for_tracks stopped tracks).
Proof.
  induction 1 as [|t rest Ht _ IH]; [apply ks_ret|].
  rewrite for_tracks_cons. ks.
  - exact Ht.
  - intros. exact IH.
Qed.

Lemma ks_expansion :
  (forall t, keeps_sources (Music.play_track t)) /\
  (forall api url, keeps_sources (Music.process_spotify_url url api)).
Proof.
  split.
  - apply (subitem_nested_ind
             (fun t => keeps_sources (Music.play_track t))
             (fun api => forall url,
                  keeps_sources (Music.process_spotify_url url api))).
    + intros t during a after Hp. rewrite play_track_eq, Hp. ks.
      * apply ks_entry. intros ch. apply ks_play_search, grows_interleave.
      * intros. apply ks_act, grows_interleave.
    + intros t e Hp. rewrite play_track_eq, Hp. ks.
      * apply ks_entry. intros ch. apply ks_raise.
      * intros. apply ks_act, grows_interleave.
    + intros t api Hp IH. rewrite play_track_eq, Hp. ks.
      * apply ks_entry. intros ch. apply IH.
      * intros. apply ks_act, grows_interleave.
    + intros api Ht Hpl Hal url. rewrite process_spotify_url_eq.
      ks; intros; auto using ks_for_tracks.
  - apply (spotify_api_nested_ind
             (fun t => keeps_sources (Music.play_track t))
             (fun api => forall url,
                  keeps_sources (Music.process_spotify_url url api))).
    + intros t during a after Hp. rewrite play_track_eq, Hp. ks.
      * apply ks_entry. intros ch. apply ks_play_search, grows_interleave.
      * intros. apply ks_act, grows_interleave.
    + intros t e Hp. rewrite play_track_eq, Hp. ks.
      * apply ks_entry. intros ch. apply ks_raise.
      * intros. apply ks_act, grows_interleave.
    + intros t api Hp IH. rewrite play_track_eq, Hp. ks.
      * apply ks_entry. intros ch. apply IH.
      * intros. apply ks_act, grows_interleave.
    + intros api Ht Hpl Hal url. rewrite process_spotify_url_eq.
      ks; intros; auto using ks_for_tracks.
Qed.

Lemma ks_play author q : keeps_sources (Music.play author q).
Proof.
  unfold Music.play. apply ks_entry. intros ch. destruct q.
  - apply ks_play_search, grows_interleave.
  - apply ks_expansion.
  - apply ks_raise.
Qed.

Lemma grows_handle r w : grows w (handle r w).
Proof.
  destruct r; cbn [handle]; [apply grows_dispatch|].
  apply grows_finish, ks_play.
Qed.

(** X20.  No run forgets or replaces a source object: whatever requests
    are served, a source that exists keeps its address, its title and its
    duration; only its volume may have changed. *)
Theorem sources_are_kept (rs : list request) (w : World) (s : ref)
    (src : YTDLSource) :
  nth_error (heap w) s = Some src ->
  exists v,
    nth_error (heap (run rs w)) s =
    Some {| src_title := src_title src; src_duration := src_duration src;
            src_volume := v |}.
Proof.
  revert w src. unfold run.
  induction rs as [|r rs IH]; cbn [fold_left]; intros w src H.
  - destruct src as [t d v]. now exists v.
  - destruct (grows_handle r w s src H) as [v Hv].
    destruct (IH _ _ Hv) as [v' Hv']. now exists v'.
Qed.

Lemma sources_are_kept_witness :
  exists v,
    nth_error
      (heap (run [Command (SetVolume 30); Command Skip; Command Stop;
                  Command Disconnect] playing_A_pending_B)) 1 =
    Some {| src_title := "B"; src_duration := Some (215 # 1)%Q;
            src_volume := v |}.
Proof.
  apply (sources_are_kept
           [Command (SetVolume 30); Command Skip; Command Stop;
            Command Disconnect] playing_A_pending_B 1%nat
           {| src_title := "B"; src_duration := Some (215 # 1)%Q;
              src_volume := 1 |}).
  reflexivity.
Defined.

(** ** More on durations *)

Lemma py_int_inject_Z (z : Z) : py_int (inject_Z z) = z.
Proof. unfold py_int, inject_Z. cbn. apply Z.quot_1_r. Qed.

(** X21.  Only the whole seconds of a duration are shown, the fraction is
    cut off toward zero: a duration prints like its integer part. *)
Theorem format_duration_truncates (d : Q) :
  format_duration (Some d) = format_duration (Some (inject_Z (py_int d))).
Proof.
  unfold format_duration. now rewrite py_int_inject_Z.
Qed.

(** X22.  A duration below one hour, a negative one included, prints as
    the M:SS of its whole seconds modulo 3600: a negative duration shows
    no sign and no hours. *)
Theorem format_duration_wraps_below_an_hour (d : Q) :
  py_int d < 3600 ->
  format_duration (Some d) =
  format_duration (Some (inject_Z (py_int d mod 3600))) /\
  format_duration (Some d) =
  str (py_int d mod 3600 / 60) ++ ":" ++ two_digits (py_int d mod 3600 mod 60).
Proof.
  intros H. unfold format_duration. rewrite py_int_inject_Z.
  pose proof (Z.mod_pos_bound (py_int d) 3600 ltac:(lia)) as Hr.
  pose proof (Z.mod_pos_bound (py_int d mod 3600) 60 ltac:(lia)) as Hs.
  assert (Hh : py_int d / 3600 <= 0).
  { assert (py_int d / 3600 < 1) by (apply Z.div_lt_upper_bound; lia). lia. }
  rewrite (Z.div_small (py_int d mod 3600) 3600) by lia.
  rewrite (Z.mod_small (py_int d mod 3600) 3600) by lia.
  destruct (Z.ltb_spec 0 (py_int d / 3600)); [lia|].
  cbn [Z.ltb Z.compare]. rewrite fmt_02d_two_digits by lia.
  split; reflexivity.
Qed.

Lemma format_duration_wraps_below_an_hour_witness :
  format_duration (Some (-1 # 1)%Q) = "59:59".
Proof.
  destruct (format_duration_wraps_below_an_hour (-1 # 1)%Q) as [_ H].
  - vm_compute. reflexivity.
  - rewrite H. reflexivity.
Defined.

(** ** The queues of the guilds *)

(** X23.  [get_queue] gets or creates: the queue it returns is the one
    the dictionary holds for the guild afterwards, a second call returns
    the same queue and leaves the dictionary as it is, a guild without a
    queue gets one with the constructor's values, and the queues of all
    other guilds are untouched. *)
Theorem get_queue_gets_or_creates (guild other : nat) (m : music_queues) :
  let q := fst (get_queue_of guild m) in
  let m' := snd (get_queue_of guild m) in
  queue_of guild m' = Some q /\
  get_queue_of guild m' = (q, m') /\
  (queue_of guild m = None -> q = new_queue) /\
  (forall q0, queue_of guild m = Some q0 -> q = q0 /\ m' = m) /\
  (other <> guild -> queue_of other m' = queue_of other m).
Proof.
  unfold get_queue_of. destruct (queue_of guild m) as [q0|] eqn:E; cbn.
  - rewrite E. split; [reflexivity|]. split; [reflexivity|].
    split; [discriminate|]. split; [|reflexivity].
    intros q1 [= ->]. split; reflexivity.
  - rewrite Nat.eqb_refl. split; [reflexivity|]. split; [reflexivity|].
    split; [reflexivity|]. split; [discriminate|].
    intros Hne. destruct (Nat.eqb_spec guild other); congruence.
Qed.

Lemma get_queue_gets_or_creates_witness :
  queue_of 7 (snd (get_queue_of 7 [(3%nat, set_loop true new_queue)]))
    = Some new_queue /\
  queue_of 3 (snd (get_queue_of 7 [(3%nat, set_loop true new_queue)]))
    = Some (set_loop true new_queue).
Proof.
  destruct (get_queue_gets_or_creates 7 3 [(3%nat, set_loop true new_queue)])
    as (Hq & _ & Hnew & _ & Hother).
  split.
  - rewrite Hq, (Hnew eq_refl). reflexivity.
  - rewrite Hother by discriminate. reflexivity.
Defined.

(** ** A play after a stop *)

Lemma processing_play_direct ch search a w :
  processing (mq (snd (Music.play_direct (Some ch) search (fun w => w) a w)))
  = true.
Proof.
  destruct w as [[q cur lp vol pr] v h cbs sl tr].
  destruct a as [cr ex]. unfold_music. cbn.
  destruct v as [[c0 [[s [|]]|]]|]; cbn;
    try destruct (Nat.eqb c0 ch); destruct cr; cbn; try reflexivity;
    destruct ex; cbn; unfold VoiceClient.is_playing; cbn; reflexivity.
Qed.

(** X24.  Every [play] of someone in a voice channel sets [processing]
    again: when such a [play] runs after a [stop] and before the next
    check of an expansion, the check finds the flag set and the expansion
    goes on with its remaining tracks. *)
Theorem play_after_stop_resumes_expansion
    (stopped : message) (t : subitem) (rest : list subitem) (w : World)
    (before : list cmd) (ch : nat) (search : string) (a : attempt) :
  processing (mq w) = true ->
  sub_after t = (before ++ [PlayNow (Some ch) search a])%list ->
  processing (mq (snd (Music.play_track t w))) = true /\
  Music.for_tracks stopped (t :: rest) w =
  Music.for_tracks stopped rest (snd (Music.play_track t w)).
Proof.
  intros Hp Ha.
  assert (Hs : exists during a0,
             sub_play t =
             AsSearch during a0 (before ++ [PlayNow (Some ch) search a])).
  { unfold sub_after in Ha.
    destruct (sub_play t) as [during a0 after|e|api].
    - exists during, a0. now subst.
    - now destruct before.
    - now destruct before. }
  destruct Hs as (during & a0 & Hs).
  rewrite (for_tracks_step stopped t rest w Hp)
    by now rewrite (play_track_search t _ _ _ w Hs).
  split; [|reflexivity].
  rewrite (play_track_search t _ _ _ w Hs). cbn [snd].
  unfold Music.interleave. rewrite fold_left_app.
  cbn [fold_left Music.dispatch]. unfold finish.
  match goal with |- context [Music.play_direct ?x ?y ?z ?u ?v] =>
    pose proof (processing_play_direct ch search a v) as H;
    destruct (Music.play_direct x y z u v) as [[[]|e] w2] end;
    cbn in *; exact H.
Qed.

Lemma play_after_stop_resumes_expansion_witness :
  let t := track_of "one" (found "one")
             [Stop; PlayNow (Some 1%nat) "other" (found "other")] in
  extractions
    (snd (Music.for_tracks StoppedPlaylist
            [t; track_of "two" (found "two") []] init))
  = ["one artist"; "other"; "two artist"].
Proof.
  cbv zeta.
  destruct (play_after_stop_resumes_expansion StoppedPlaylist
              (track_of "one" (found "one")
                 [Stop; PlayNow (Some 1%nat) "other" (found "other")])
              [track_of "two" (found "two") []] init [Stop] 1%nat "other"
              (found "other")) as [_ H].
  - reflexivity.
  - reflexivity.
  - rewrite H. reflexivity.
Defined.

(** ** Titles that are not search terms *)

(** X25.  A track whose title and artist make [urlparse] raise ends the
    whole expansion: the [play] of that track raises before its [try]
    block, [process_spotify_url] reports "Error processing Spotify URL"
    with that error, and neither this track nor any track after it is
    extracted; the tracks before it were handled as usual. *)
Theorem unparsable_title_ends_expansion
    (ch : nat) (url e : string) (api : spotify_api)
    (pre : list subitem) (t : subitem) (post : list subitem) (w : World) :
  contains "track" url = false ->
  contains "playlist" url = true ->
  get_playlist_tracks api = inr (pre ++ t :: post)%list ->
  Forall (quiet ch) pre ->
  sub_author t = Some ch ->
  sub_play t = UrlRaises e ->
  let w' := handle (Play (Some ch) (SpotifyUrl url api)) w in
  hd_error (trace w') = Some (Send (SpotifyError e)) /\
  extractions w' = (extractions w ++ map search_of pre)%list /\
  heap w' = (heap w ++ sources_of pre)%list /\
  (forall s, (List.length (heap w) <= s < List.length (heap w'))%nat ->
     current (mq w') = Some s \/ In s (queue (mq w'))).
Proof.
  intros Ht Hp Ha Hpre Hau Hpl. cbv zeta.
  rewrite (play_playlist_runs_loop ch url api _ w Ht Hp Ha).
  set (w0 := with_mq (set_processing true (mq w)) w).
  assert (Hp0 : processing (mq w0) = true) by reflexivity.
  destruct (quiet_for_tracks StoppedPlaylist ch pre Hpre
              (List.length (heap w0)) w0 Hp0 (kept_start w0) (le_n _))
    as (Hk & Hp1 & Hh & _ & He).
  cbv zeta in *.
  unfold try_except.
  rewrite (quiet_for_tracks_app StoppedPlaylist ch pre) by assumption.
  set (w1 := snd (Music.for_tracks StoppedPlaylist pre w0)) in *.
  rewrite for_tracks_cons. unfold bind at 1, Music.get_queue, read.
  rewrite Hp1. cbn [negb]. unfold bind at 1.
  rewrite play_track_eq, Hau, Hpl.
  unfold Music.play_entry, Music.update_queue, bind, act, raise, send.
  cbn [snd fst]. unfold extractions in *. cbn. rewrite Hp1. cbn.
  repeat split; auto.
  intros s Hs. destruct (Hk s Hs) as [[Hc _]|Hin]; auto.
Qed.

Lemma unparsable_title_ends_expansion_witness :
  let bad := {| sub_track := {| td_title := "//[Intro]"; td_artist := "x" |};
                sub_author := Some 1%nat;
                sub_play := UrlRaises "Invalid IPv6 URL" |} in
  let api := {| get_track_info := inl "unused";
                get_playlist_tracks :=
                  inr [track_of "one" (found "one") []; bad;
                       track_of "three" (found "three") []];
                get_album_tracks := inl "unused" |} in
  let w' := handle (Play (Some 1%nat)
                      (SpotifyUrl "https://open.spotify.com/playlist/x" api))
              init in
  hd_error (trace w') = Some (Send (SpotifyError "Invalid IPv6 URL")) /\
  extractions w' = ["one artist"].
Proof.
  cbv zeta.
  destruct (unparsable_title_ends_expansion 1%nat
              "https://open.spotify.com/playlist/x" "Invalid IPv6 URL"
              {| get_track_info := inl "unused";
                 get_playlist_tracks :=
                   inr [track_of "one" (found "one") [];
                        {| sub_track := {| td_title := "//[Intro]";
                                           td_artist := "x" |};
                           sub_author := Some 1%nat;
                           sub_play := UrlRaises "Invalid IPv6 URL" |};
                        track_of "three" (found "three") []];
                 get_album_tracks := inl "unused" |}
              [track_of "one" (found "one") []]
              {| sub_track := {| td_title := "//[Intro]"; td_artist := "x" |};
                 sub_author := Some 1%nat;
                 sub_play := UrlRaises "Invalid IPv6 URL" |}
              [track_of "three" (found "three") []] init)
    as (Ht & He & _); try reflexivity.
  - repeat constructor.
  - split; [exact Ht | exact He].
Defined.

(** X26.  A track whose title and artist form a URL of a Spotify host is
    not searched for: its [play] hands the composed query to
    [process_spotify_url] again, with the flag set, and whatever happens
    there, a failure of the client included, the outer loop goes on with
    its next track. *)
Theorem spotify_title_is_expanded_in_place
    (stopped : message) (ch : nat) (api : spotify_api)
    (t : subitem) (rest : list subitem) (w : World) :
  processing (mq w) = true ->
  sub_author t = Some ch ->
  sub_play t = AsSpotifyUrl api ->
  Music.for_tracks stopped (t :: rest) w =
  Music.for_tracks stopped rest
    (snd (Music.process_spotify_url (search_of t) api
            (with_mq (set_processing true (mq w)) w))).
Proof.
  intros Hp Hau Hpl.
  assert (Hplay : Music.play_track t w =
                  (Returned tt,
                   snd (Music.process_spotify_url (search_of t) api
                          (with_mq (set_processing true (mq w)) w)))).
  { rewrite play_track_eq, Hau, Hpl. unfold sub_after. rewrite Hpl.
    unfold Music.play_entry, Music.update_queue, bind, act.
    pose proof (process_spotify_url_returns (search_of t) api
                  (with_mq (set_processing true (mq w)) w)) as H.
    destruct (Music.process_spotify_url (search_of t) api
                (with_mq (set_processing true (mq w)) w)) as [[[]|e] w1];
      [reflexivity | discriminate H]. }
  rewrite for_tracks_step by (try assumption; now rewrite Hplay).
  now rewrite Hplay.
Qed.

Lemma spotify_title_is_expanded_in_place_witness :
  let inner := {| get_track_info := inl "unused";
                  get_playlist_tracks := inl "unused";
                  get_album_tracks :=
                    inr [track_of "inner" (found "inner") []] |} in
  let t := {| sub_track :=
                {| td_title := "https://open.spotify.com/album/y";
                   td_artist := "x" |};
              sub_author := Some 1%nat;
              sub_play := AsSpotifyUrl inner |} in
  extractions
    (snd (Music.for_tracks StoppedPlaylist
            [t; track_of "two" (found "two") []] init))
  = ["inner artist"; "two artist"].
Proof.
  cbv zeta.
  rewrite (spotify_title_is_expanded_in_place StoppedPlaylist 1%nat
             {| get_track_info := inl "unused";
                get_playlist_tracks := inl "unused";
                get_album_tracks :=
                  inr [track_of "inner" (found "inner") []] |});
    reflexivity.
Defined.
